(** * Find-and-replace UI bindings and image style defaults (ckeditor5)

    A shallow embedding of
    - [FindAndReplaceUI._setupFormView] (find-and-replace/findandreplaceui):
      the [highlightOffset] binding, the [matchCount] listener and the
      [change:isDirty] listener;
    - [ImageStyleEditing._defineDefaultConfiguration]
      (image/imagestyle/imagestyleediting).

    JavaScript arrays live in a heap of array objects, so that the in-place
    [Array.prototype.sort] and the copy made by [Array.from] are both visible
    in the model.  Result objects are handled by reference: [indexOf] uses
    strict equality, which on objects is equality of references. *)

From stdpp Require Import base decidable option list sorting gmap strings fin_maps.
From Stdlib Require Import ZArith Lia.

Local Open Scope Z_scope.

(** ** JavaScript array primitives *)

Module JSArray.

Section Primitives.
Context {A : Type} `{EqDecision A}.

(** A comparator may return [undefined]; that is [None] here. *)
Variable comparefn : A → A → option Z.

(** ECMAScript [SortCompare]: the comparator's value goes through
    [ToNumber], and a [NaN] (from [undefined]) counts as [+0]. *)
Definition SortCompare (x y : A) : Z :=
  match comparefn x y with
  | Some v => v
  | None => 0
  end.

(** [Array.prototype.sort] is stable (ECMAScript 2019 and later): an element
    moves in front of another only when the comparator says it is smaller.
    The model is the stable insertion sort.  It is the engine's result
    whenever the comparator is a consistent comparison function for the
    elements of the array: every stable sorted permutation is then this one
    ([sort_unique], [sort_unique_on]).  For any other comparator ECMAScript
    leaves the order to the engine, and of this model only the fact that the
    result is a permutation of the array carries over. *)
Fixpoint sort_insert (x : A) (l : list A) : list A :=
  match l with
  | [] => [x]
  | y :: l' =>
      if decide (0 < SortCompare x y) then y :: sort_insert x l' else x :: y :: l'
  end.

Fixpoint sort (l : list A) : list A :=
  match l with
  | [] => []
  | x :: l' => sort_insert x (sort l')
  end.

(** [Array.prototype.indexOf]: the first index [k] with [l[k] === x],
    or [-1]. *)
Fixpoint indexOf_from (l : list A) (x : A) (k : Z) : Z :=
  match l with
  | [] => -1
  | y :: l' => if decide (y = x) then k else indexOf_from l' x (k + 1)
  end.

Definition indexOf (l : list A) (x : A) : Z := indexOf_from l x 0.

(** The comparator is a consistent comparison function in the sense of
    ECMAScript (sec. Array.prototype.sort): [=], [<] and [>] as read off
    [SortCompare] are transitive, and [=] is reflexive and symmetric. *)
Record Consistent : Prop := {
  cmp_refl a : SortCompare a a = 0;
  cmp_sym a b : SortCompare a b = 0 → SortCompare b a = 0;
  cmp_eq_trans a b c :
    SortCompare a b = 0 → SortCompare b c = 0 → SortCompare a c = 0;
  cmp_lt_trans a b c :
    SortCompare a b < 0 → SortCompare b c < 0 → SortCompare a c < 0;
  cmp_gt_trans a b c :
    0 < SortCompare a b → 0 < SortCompare b c → 0 < SortCompare a c
}.

(** The same, for the elements of the array [U] only: this is what
    ECMAScript asks of a comparator for the values that are sorted. *)
Record ConsistentOn (U : list A) : Prop := {
  on_refl a : a ∈ U → SortCompare a a = 0;
  on_sym a b : a ∈ U → b ∈ U → SortCompare a b = 0 → SortCompare b a = 0;
  on_eq_trans a b c : a ∈ U → b ∈ U → c ∈ U →
    SortCompare a b = 0 → SortCompare b c = 0 → SortCompare a c = 0;
  on_lt_trans a b c : a ∈ U → b ∈ U → c ∈ U →
    SortCompare a b < 0 → SortCompare b c < 0 → SortCompare a c < 0;
  on_gt_trans a b c : a ∈ U → b ∈ U → c ∈ U →
    0 < SortCompare a b → 0 < SortCompare b c → 0 < SortCompare a c
}.

(** "not after": the order the sorted array is ascending in. *)
Definition cmp_le (x y : A) : Prop := SortCompare x y ≤ 0.

(** The elements that tie with [k]. *)
Definition ties (k : A) (y : A) : Prop := SortCompare k y = 0.

#[export] Instance ties_dec k y : Decision (ties k y).
Proof. unfold ties. apply _. Defined.

(** What a stable sort of [l] is: a permutation of [l], ascending, and with
    every class of tied elements in the order it has in [l]. *)
Definition StableSortOf (l s : list A) : Prop :=
  s ≡ₚ l ∧ StronglySorted cmp_le s ∧ ∀ k, filter (ties k) s = filter (ties k) l.

(** The same, with the classes of the elements of [l] only. *)
Definition StableSortOn (l s : list A) : Prop :=
  s ≡ₚ l ∧ StronglySorted cmp_le s ∧
  ∀ k, k ∈ l → filter (ties k) s = filter (ties k) l.

End Primitives.

End JSArray.

(** ** find-and-replace/findandreplaceui *)

Module FindAndReplaceUI.

(** [module:engine/model/position~PositionRelation]: what
    [Position#compareWith] returns. *)
Inductive PositionRelation := before | same | after | different.

(** References to result objects, and to arrays and collections. *)
Abbreviation ref := nat (only parsing).
Abbreviation loc := nat (only parsing).

(** The heap of array-like objects: each holds references, in order. *)
Abbreviation Heap := (gmap loc (list ref)) (only parsing).

(** Computations on the heap that may throw. *)
Definition JS (T : Type) : Type := Heap → option (T * Heap).

#[export] Instance JS_ret : MRet JS := λ T (x : T) σ, Some (x, σ).
#[export] Instance JS_bind : MBind JS := λ T U (f : T → JS U) (m : JS T) σ,
  match m σ with
  | Some (x, σ') => f x σ'
  | None => None
  end.

(** [Array.from( c )]: a new array with the items of [c], in order. *)
Definition Array_from (c : loc) : JS loc := λ σ,
  items ← σ !! c;
  let a := fresh (dom σ) in
  Some (a, <[a := items]> σ).

(** [a.sort( comparefn )]: sorts [a] in place and returns [a]. *)
Definition Array_sort (comparefn : ref → ref → option Z) (a : loc) : JS loc := λ σ,
  items ← σ !! a;
  Some (a, <[a := JSArray.sort comparefn items]> σ).

(** [a.indexOf( x )]. *)
Definition Array_indexOf (a : loc) (x : ref) : JS Z := λ σ,
  items ← σ !! a;
  Some (JSArray.indexOf items x, σ).

(** [c.length]. *)
Definition Collection_length (c : loc) : JS Z := λ σ,
  items ← σ !! c;
  Some (Z.of_nat (length items), σ).

(** [const sortMapping = { before: -1, same: 0, after: 1 };]
    any other key reads as [undefined]. *)
Definition sortMapping (r : PositionRelation) : option Z :=
  match r with
  | before => Some (-1)
  | same => Some 0
  | after => Some 1
  | different => None
  end.

(** [findAndReplaceEditing.state]. *)
Record EditingState := {
  results : loc;
  highlightedResult : option ref
}.

(** The properties of the form view that [_setupFormView] writes. *)
Record FormView := {
  highlightOffset : Z;
  matchCount : Z
}.

(** The events the plugin fires. *)
Inductive PluginEvent :=
  | findNext (searchText : string)
  | findPrevious (searchText : string)
  | replace (replaceText : string)
  | replaceAll (replaceText : string)
  | searchReseted.

#[export] Instance PluginEvent_eq_dec : EqDecision PluginEvent.
Proof. solve_decision. Defined.

(** How many times [searchReseted] is in a log of fired events. *)
Definition resets (log : list PluginEvent) : nat :=
  length (filter (λ e, e = searchReseted) log).

(** What the framework delivers to the listeners and bindings that
    [_setupFormView] registers. *)
Inductive Notification :=
  | HighlightedResultChange (highlightedResult : option ref)
  | ResultsChange
  | FormViewEvent (e : PluginEvent)
  | IsDirtyChange (isDirty : bool).

#[export] Instance Notification_eq_dec : EqDecision Notification.
Proof. solve_decision. Defined.

(** How many of the notifications are a change of [isDirty] to [true]. *)
Definition dirtyings (ns : list Notification) : nat :=
  length (filter (λ n, n = IsDirtyChange true) ns).

(** The plugin with its form view; [fired] logs [this.fire( ... )]. *)
Record UI := {
  formView : FormView;
  editingState : EditingState;
  fired : list PluginEvent
}.

Section SetupFormView.
Context {Position : Type}.

(** [Position#compareWith]. *)
Variable compareWith : Position → Position → PositionRelation.

Record Marker := { getStart : Position }.
Record Result := { marker : Marker }.

(** The result object behind each reference. *)
Variable deref : ref → Result.

(** [( a, b ) => sortMapping[ a.marker.getStart().compareWith( b.marker.getStart() ) ]] *)
Definition comparefn (a b : ref) : option Z :=
  sortMapping (compareWith (getStart (marker (deref a))) (getStart (marker (deref b)))).

(** The callback of the [highlightOffset] binding. *)
Definition computeHighlightOffset
    (editingState : EditingState) (highlightedResult : option ref) : JS Z :=
  match highlightedResult with
  | None => mret 0
  | Some h =>
      arr ← Array_from (results editingState);
      sorted ← Array_sort comparefn arr;
      index ← Array_indexOf sorted h;
      mret (index + 1)
  end.

(** The spec's words for what is searched: "a sequence of all Results in
    [results], sorted ascending by position", where ascending means that no
    element's position compares as [after] a later element's. *)
Definition not_after (a b : ref) : Prop :=
  compareWith (getStart (marker (deref a))) (getStart (marker (deref b))) ≠ after.

Definition SortedByPosition (R S : list ref) : Prop :=
  S ≡ₚ R ∧ StronglySorted not_after S.

(** The listener on [editingState.results], ['change']. *)
Definition on_results_change (editingState : EditingState) (formView : FormView)
    : JS FormView :=
  n ← Collection_length (results editingState);
  mret {| highlightOffset := highlightOffset formView; matchCount := n |}.

(** The listener on the form view, ['change:isDirty']. *)
Definition on_change_isDirty (isDirty : bool) (fired : list PluginEvent)
    : list PluginEvent :=
  if isDirty then fired ++ [searchReseted] else fired.

(** [formView.delegate( 'findNext', 'findPrevious', 'replace', 'replaceAll' ).to( this )] *)
Definition delegate (e : PluginEvent) (fired : list PluginEvent) : list PluginEvent :=
  match e with
  | searchReseted => fired
  | _ => fired ++ [e]
  end.

(** One notification, handled by what [_setupFormView] registered. *)
Definition dispatch (n : Notification) (ui : UI) : JS UI :=
  match n with
  | HighlightedResultChange h =>
      let st := {| results := results (editingState ui); highlightedResult := h |} in
      offset ← computeHighlightOffset st h;
      mret {| formView := {| highlightOffset := offset;
                             matchCount := matchCount (formView ui) |};
              editingState := st;
              fired := fired ui |}
  | ResultsChange =>
      fv ← on_results_change (editingState ui) (formView ui);
      mret {| formView := fv; editingState := editingState ui; fired := fired ui |}
  | FormViewEvent e =>
      mret {| formView := formView ui; editingState := editingState ui;
              fired := delegate e (fired ui) |}
  | IsDirtyChange isDirty =>
      mret {| formView := formView ui; editingState := editingState ui;
              fired := on_change_isDirty isDirty (fired ui) |}
  end.

(** A run of notifications, in order. *)
Fixpoint dispatch_all (ns : list Notification) (ui : UI) : JS UI :=
  match ns with
  | [] => mret ui
  | n :: ns' => ui' ← dispatch n ui; dispatch_all ns' ui'
  end.

End SetupFormView.

End FindAndReplaceUI.

(** ** Positions as offsets *)

Module OffsetPositions.

Import FindAndReplaceUI.

(** Modelled from the spec: [Position#compareWith] of the engine is not among
    the sources; the spec takes a position to be "a comparable location in
    document order, e.g. an offset", so offsets are integers compared as
    such. *)
Definition compareWith (p q : Z) : PositionRelation :=
  match p ?= q with
  | Lt => before
  | Eq => same
  | Gt => after
  end.

(** Result objects whose markers start at the given offsets: reference [r] is
    the object with the [r]-th offset. *)
Definition deref (starts : list Z) (r : ref) : Result :=
  {| marker := {| getStart := starts !!! r |} |}.

End OffsetPositions.

(** ** Positions in several roots *)

Module RootedPositions.

Import FindAndReplaceUI.

(** Modelled from the spec: [Position] and [Position#compareWith] of the
    engine are not among the sources.  A position is "a comparable location
    in document order, e.g. an offset" (sec. 3), here an offset in a root of
    the document; two positions of one root compare as their offsets, and two
    positions of different roots compare as [different], the fourth value of
    the engine's [PositionRelation]. *)
Record Position := {
  root : string;
  offset : Z
}.

#[export] Instance Position_inhabited : Inhabited Position :=
  populate {| root := EmptyString; offset := 0 |}.

Definition compareWith (p q : Position) : PositionRelation :=
  if decide (root p = root q)
  then OffsetPositions.compareWith (offset p) (offset q)
  else different.

(** Result objects whose markers start at the given positions: reference [r]
    is the object with the [r]-th position. *)
Definition deref (starts : list Position) (r : ref) : Result :=
  {| marker := {| getStart := starts !!! r |} |}.

End RootedPositions.

(** ** The scenarios of the spec's testable properties *)

Module Scenario.

Import FindAndReplaceUI.

Definition resultA : ref := 0%nat.
Definition resultB : ref := 1%nat.
Definition resultC : ref := 2%nat.

(** [resultA] at position 10, [resultB] at 5, [resultC] at 20. *)
Definition deref : ref → Result := OffsetPositions.deref [10; 5; 20].

(** [resultA] and [resultB] both at position 7, [resultC] at 3. *)
Definition deref_tied : ref → Result := OffsetPositions.deref [7; 7; 3].

(** The collection is the array at location 0 and holds, in insertion order,
    [resultA], [resultB], [resultC]; [resultB] is highlighted. *)
Definition state : EditingState :=
  {| results := 0%nat; highlightedResult := Some resultB |}.

Definition heap : gmap nat (list nat) :=
  {[ 0%nat := [resultA; resultB; resultC] ]}.

Definition ui : UI :=
  {| formView := {| highlightOffset := 0; matchCount := 0 |};
     editingState := state;
     fired := [] |}.

End Scenario.

(** ** image/imagestyle/imagestyleediting *)

Module ImageStyleEditing.

(** The [styles] object literal: its keys and their arrays of names. *)
Abbreviation Styles := (gmap string (list string)) (only parsing).

Section DefaultConfiguration.
Context {Config : Type}.

(** [config.define( name, value )]; [None] is [undefined]. *)
Variable define : string → option Styles → Config → Config.

(** The value of [styles] when [config.define] is reached. *)
Definition styles (loadedPlugins : gset string) : option Styles :=
  let isBlockLoaded := bool_decide ("ImageBlock" ∈ loadedPlugins) in
  let isinlineLoaded := bool_decide ("ImageInline" ∈ loadedPlugins) in
  if isBlockLoaded && isinlineLoaded then
    Some {[ "arrangements" :=
              [ "alignInline"; "alignLeft"; "alignRight";
                "alignCenter"; "alignBlockLeft"; "alignBlockRight" ];
            "groups" := [ "inParagraph"; "betweenParagraphs" ] ]}
  else if isBlockLoaded then
    Some {[ "arrangements" := [ "full"; "side" ] ]}
  else if isinlineLoaded then
    Some {[ "arrangements" := [ "alignInline"; "alignLeft"; "alignRight" ] ]}
  else
    None.

Definition _defineDefaultConfiguration (loadedPlugins : gset string) (config : Config)
    : Config :=
  define "image.styles" (styles loadedPlugins) config.

End DefaultConfiguration.

End ImageStyleEditing.

(** ** The toolbar component of find-and-replace: [init] *)

Module FindAndReplaceDropdown.

Import FindAndReplaceUI.

#[export] Instance PositionRelation_eq_dec : EqDecision PositionRelation.
Proof. solve_decision. Defined.

(** The [findNext], [findPrevious], [replace] and [replaceAll] events that
    the form view fired and the plugin fires again, in order. *)
Definition delegated (ns : list Notification) : list PluginEvent :=
  omap (λ n, match n with
             | FormViewEvent searchReseted => None
             | FormViewEvent e => Some e
             | _ => None
             end) ns.

(** The events of a log other than [searchReseted]. *)
Definition commandEvents (log : list PluginEvent) : list PluginEvent :=
  filter (λ e, e ≠ searchReseted) log.

(** The methods of the form view that the ['change:isOpen'] listener calls;
    [select] is [formView._findInputView.fieldView.select()]. *)
Inductive FormViewCall :=
  | disableCssTransitions
  | reset
  | select
  | focus
  | enableCssTransitions.

#[export] Instance FormViewCall_eq_dec : EqDecision FormViewCall.
Proof. solve_decision. Defined.

(** How many times the method [m] is in a log of calls. *)
Definition called (m : FormViewCall) (log : list FormViewCall) : nat :=
  length (filter (λ c, c = m) log).

(** The component that the factory callback builds: the plugin with the
    bindings of [_setupFormView], and the calls made on the form view. *)
Record Component := {
  plugin : UI;
  calls : list FormViewCall
}.

(** [this.fire( e )]. *)
Definition fire (e : PluginEvent) (p : UI) : UI :=
  {| formView := formView p; editingState := editingState p; fired := fired p ++ [e] |}.

(** The listener on the dropdown, ['change:isOpen']. *)
Definition on_change_isOpen (isOpen : bool) (c : Component) : Component :=
  if isOpen then
    {| plugin := plugin c;
       calls := calls c ++
                [disableCssTransitions; reset; select; focus; enableCssTransitions] |}
  else
    {| plugin := fire searchReseted (plugin c);
       calls := calls c ++ [focus] |}.

(** What the framework delivers to the component: a notification for what
    [_setupFormView] registered, or a change of [dropdown.isOpen]. *)
Inductive Input :=
  | FormViewNotification (n : Notification)
  | IsOpenChange (isOpen : bool).

#[export] Instance Input_eq_dec : EqDecision Input.
Proof. solve_decision. Defined.

Definition openings (inputs : list Input) : nat :=
  length (filter (λ i, i = IsOpenChange true) inputs).

Definition closings (inputs : list Input) : nat :=
  length (filter (λ i, i = IsOpenChange false) inputs).

Definition notifications (inputs : list Input) : list Notification :=
  omap (λ i, match i with
             | FormViewNotification n => Some n
             | IsOpenChange _ => None
             end) inputs.

Section Handle.
Context {Position : Type}.
Variable compareWith : Position → Position → PositionRelation.
Variable deref : ref → Result (Position := Position).

Definition handle (i : Input) (c : Component) : JS Component :=
  match i with
  | FormViewNotification n =>
      p ← dispatch compareWith deref n (plugin c);
      mret {| plugin := p; calls := calls c |}
  | IsOpenChange isOpen => mret (on_change_isOpen isOpen c)
  end.

Fixpoint handle_all (inputs : list Input) (c : Component) : JS Component :=
  match inputs with
  | [] => mret c
  | i :: inputs' => c' ← handle i c; handle_all inputs' c'
  end.

End Handle.

End FindAndReplaceDropdown.

(** ** Result sets with results in two roots *)

Module TwoRoots.

Import FindAndReplaceUI RootedPositions.

(** [resultA] at offset 10 of the root [main], [resultB] at offset 5 of the
    root [second], [resultC] at offset 3 of the root [main]; the collection is
    [Scenario.heap], with the three results in this order. *)
Definition deref : ref → Result :=
  RootedPositions.deref
    [ {| root := "main"; offset := 10 |};
      {| root := "second"; offset := 5 |};
      {| root := "main"; offset := 3 |} ].

(** Seven results: [x1], [x2], [m], [x3] at offsets 1, 2, 5, 3 of [main], [y]
    in [second], and [r1] and then [r2], both at offset 4 of [main]. *)
Definition x1 : ref := 0%nat.
Definition x2 : ref := 1%nat.
Definition m : ref := 2%nat.
Definition y : ref := 4%nat.
Definition r1 : ref := 5%nat.
Definition r2 : ref := 6%nat.



(** A collection with the two results of [deref] that are in [main]:
    [resultA] and then [resultC]. *)
Definition heap_main : gmap nat (list nat) :=
  {[ 0%nat := [Scenario.resultA; Scenario.resultC] ]}.

End TwoRoots.

(** ** A session of the toolbar component *)

Module Session.

Import FindAndReplaceUI FindAndReplaceDropdown Scenario.

(** The same results as in [Scenario.heap], inserted in another order. *)
Definition heap_reordered : gmap nat (list nat) :=
  {[ 0%nat := [resultC; resultA; resultB] ]}.

(** The notifications of a search for "cat" and a replacement by "dog". *)
Definition run : list Notification :=
  [ IsDirtyChange true;
    FormViewEvent (findNext "cat");
    IsDirtyChange false;
    ResultsChange;
    HighlightedResultChange (Some resultB);
    FormViewEvent (replace "dog");
    HighlightedResultChange None ].

(** The form shows "2 of 3" for the three results of [Scenario.heap]. *)
Definition ui_2_of_3 : UI :=
  {| formView := {| highlightOffset := 2; matchCount := 3 |};
     editingState := state;
     fired := [] |}.

Definition component : Component := {| plugin := ui; calls := [] |}.

(** The dropdown is opened, used as in [run], and closed. *)
Definition inputs : list Input :=
  IsOpenChange true :: (FormViewNotification <$> run) ++ [IsOpenChange false].

End Session.

(** * Facts about the array primitives *)

Section SortFacts.
Context {A : Type} `{EqDecision A}.
Variable comparefn : A → A → option Z.

Import JSArray.

Local Abbreviation cmp := (SortCompare comparefn).
Local Abbreviation le := (cmp_le comparefn).
Local Abbreviation tie := (ties comparefn).

Lemma sort_insert_perm (x : A) (l : list A) : sort_insert comparefn x l ≡ₚ x :: l.
Proof.
  induction l as [|y l IH]; simpl; [done|].
  case_decide; [|done].
  rewrite IH. apply Permutation_swap.
Qed.

Lemma sort_perm (l : list A) : sort comparefn l ≡ₚ l.
Proof.
  induction l as [|x l IH]; simpl; [done|].
  by rewrite sort_insert_perm, IH.
Qed.

Lemma sort_length (l : list A) : length (sort comparefn l) = length l.
Proof. by rewrite sort_perm. Qed.

Lemma sort_elem_of (x : A) (l : list A) : x ∈ sort comparefn l ↔ x ∈ l.
Proof. by rewrite sort_perm. Qed.

Section WithConsistent.
Hypothesis Hc : Consistent comparefn.

Lemma cmp_flip_lt (a b : A) : cmp a b < 0 → 0 < cmp b a.
Proof.
  intros Hab.
  destruct (Z.lt_trichotomy (cmp b a) 0) as [Hlt|[Heq|Hgt]]; [| |done].
  - pose proof (cmp_lt_trans _ Hc a b a Hab Hlt) as Haa.
    rewrite (cmp_refl _ Hc) in Haa. lia.
  - apply (cmp_sym _ Hc) in Heq. lia.
Qed.

Lemma cmp_flip_gt (a b : A) : 0 < cmp a b → cmp b a < 0.
Proof.
  intros Hab.
  destruct (Z.lt_trichotomy (cmp b a) 0) as [Hlt|[Heq|Hgt]]; [done| |].
  - apply (cmp_sym _ Hc) in Heq. lia.
  - pose proof (cmp_gt_trans _ Hc a b a Hab Hgt) as Haa.
    rewrite (cmp_refl _ Hc) in Haa. lia.
Qed.

Lemma cmp_lt_eq_trans (a b c : A) : cmp a b < 0 → cmp b c = 0 → cmp a c < 0.
Proof.
  intros Hab Hbc.
  destruct (Z.lt_trichotomy (cmp a c) 0) as [Hlt|[Heq|Hgt]]; [done| |].
  - pose proof (cmp_eq_trans _ Hc a c b Heq (cmp_sym _ Hc b c Hbc)). lia.
  - pose proof (cmp_lt_trans _ Hc c a b (cmp_flip_gt a c Hgt) Hab) as Hcb.
    rewrite (cmp_sym _ Hc b c Hbc) in Hcb. lia.
Qed.

Lemma cmp_eq_lt_trans (a b c : A) : cmp a b = 0 → cmp b c < 0 → cmp a c < 0.
Proof.
  intros Hab Hbc.
  destruct (Z.lt_trichotomy (cmp a c) 0) as [Hlt|[Heq|Hgt]]; [done| |].
  - pose proof (cmp_eq_trans _ Hc b a c (cmp_sym _ Hc a b Hab) Heq). lia.
  - pose proof (cmp_gt_trans _ Hc a c b Hgt (cmp_flip_lt b c Hbc)). lia.
Qed.

Lemma cmp_le_trans (a b c : A) : le a b → le b c → le a c.
Proof.
  unfold cmp_le. intros Hab Hbc.
  destruct (decide (cmp a b = 0)) as [Hab0|Hab0];
    destruct (decide (cmp b c = 0)) as [Hbc0|Hbc0].
  - rewrite (cmp_eq_trans _ Hc a b c); done.
  - assert (cmp a c < 0); [apply (cmp_eq_lt_trans a b c)|]; lia.
  - assert (cmp a c < 0); [apply (cmp_lt_eq_trans a b c)|]; lia.
  - assert (cmp a c < 0); [apply (cmp_lt_trans _ Hc a b c)|]; lia.
Qed.

Lemma cmp_le_antisym (a b : A) : le a b → le b a → cmp a b = 0.
Proof.
  unfold cmp_le. intros Hab Hba.
  destruct (decide (cmp a b = 0)) as [|Hne]; [done|].
  assert (0 < cmp b a); [apply cmp_flip_lt|]; lia.
Qed.

Lemma ties_not_gt (k x y : A) : tie k x → tie k y → ¬ 0 < cmp x y.
Proof.
  unfold ties. intros Hx Hy.
  rewrite (cmp_eq_trans _ Hc x k y); [lia| |done].
  by apply (cmp_sym _ Hc).
Qed.

Lemma sort_insert_sorted (x : A) (l : list A) :
  StronglySorted le l → StronglySorted le (sort_insert comparefn x l).
Proof.
  induction l as [|y l IH]; simpl; intros Hl.
  - repeat constructor.
  - apply StronglySorted_cons in Hl as [Hy Hl].
    case_decide as Hxy.
    + apply StronglySorted_cons. split; [|by apply IH].
      rewrite sort_insert_perm. constructor; [|done].
      unfold cmp_le. apply cmp_flip_gt in Hxy. lia.
    + assert (le x y) as Hle by (unfold cmp_le; lia).
      apply StronglySorted_cons. split.
      * constructor; [done|].
        eapply Forall_impl; [exact Hy|]. intros z Hz. by apply (cmp_le_trans x y z).
      * by apply StronglySorted_cons.
Qed.

Lemma sort_sorted (l : list A) : StronglySorted le (sort comparefn l).
Proof.
  induction l as [|x l IH]; simpl; [constructor|].
  by apply sort_insert_sorted.
Qed.

Lemma sort_insert_ties (k x : A) (l : list A) :
  filter (tie k) (sort_insert comparefn x l) = filter (tie k) (x :: l).
Proof.
  induction l as [|y l IH]; simpl; [done|].
  case_decide as Hxy; [|done].
  rewrite (filter_cons _ y (sort_insert _ _ _)), IH, !filter_cons.
  destruct (decide (tie k x)) as [Hx|Hx]; destruct (decide (tie k y)) as [Hy|Hy];
    try done.
  by destruct (ties_not_gt k x y).
Qed.

Lemma sort_stable (k : A) (l : list A) :
  filter (tie k) (sort comparefn l) = filter (tie k) l.
Proof.
  induction l as [|x l IH]; simpl; [done|].
  by rewrite sort_insert_ties, !filter_cons, IH.
Qed.

Lemma sort_StableSortOf (l : list A) : StableSortOf comparefn l (sort comparefn l).
Proof. split; [apply sort_perm|]. split; [apply sort_sorted|]. intros k. apply sort_stable. Qed.

Lemma stable_sorted_eq (s1 s2 : list A) :
  s1 ≡ₚ s2 → StronglySorted le s1 → StronglySorted le s2 →
  (∀ k, filter (tie k) s1 = filter (tie k) s2) → s1 = s2.
Proof.
  revert s2. induction s1 as [|x s1 IH]; intros s2 Hp H1 H2 Hf.
  - by apply Permutation_nil_l in Hp.
  - destruct s2 as [|y s2]; [by apply Permutation_nil_r in Hp|].
    apply StronglySorted_cons in H1 as [Hx H1].
    apply StronglySorted_cons in H2 as [Hy H2].
    assert (cmp x y = 0) as Hxy.
    { assert (y ∈ x :: s1) as Hyin by (rewrite Hp; left).
      assert (x ∈ y :: s2) as Hxin by (rewrite <- Hp; left).
      apply elem_of_cons in Hyin as [->|Hyin]; [apply (cmp_refl _ Hc)|].
      apply elem_of_cons in Hxin as [->|Hxin]; [apply (cmp_refl _ Hc)|].
      rewrite Forall_forall in Hx, Hy. apply cmp_le_antisym; auto. }
    assert (x = y) as <-.
    { specialize (Hf x). rewrite !filter_cons in Hf.
      rewrite decide_True in Hf by apply (cmp_refl _ Hc).
      rewrite decide_True in Hf by exact Hxy. congruence. }
    f_equal. apply IH; [by apply Permutation_cons_inv in Hp|done|done|].
    intros k. specialize (Hf k). rewrite !filter_cons in Hf.
    case_decide; congruence.
Qed.

(** Every stable sort of [l] is the modelled one. *)
Lemma sort_unique (l s : list A) : StableSortOf comparefn l s → s = sort comparefn l.
Proof.
  intros (Hp & Hs & Hf). apply stable_sorted_eq; [|done|apply sort_sorted|].
  - by rewrite sort_perm.
  - intros k. by rewrite sort_stable.
Qed.

End WithConsistent.

End SortFacts.

Section IndexOfFacts.
Context {A : Type} `{EqDecision A}.

Import JSArray.

Lemma indexOf_from_not_elem_of (l : list A) (x : A) (k : Z) :
  x ∉ l → indexOf_from l x k = -1.
Proof.
  revert k. induction l as [|y l IH]; intros k Hx; simpl; [done|].
  apply not_elem_of_cons in Hx as [Hne Hx].
  rewrite decide_False by done. by apply IH.
Qed.

Lemma indexOf_from_elem_of (l : list A) (x : A) (k : Z) :
  x ∈ l →
  ∃ i : nat, indexOf_from l x k = k + Z.of_nat i ∧ l !! i = Some x ∧
             ∀ j : nat, (j < i)%nat → l !! j ≠ Some x.
Proof.
  revert k. induction l as [|y l IH]; intros k Hx; simpl.
  - by apply elem_of_nil in Hx.
  - case_decide as Hy.
    + exists 0%nat. subst y. split; [lia|]. split; [done|]. intros j Hj. lia.
    + apply elem_of_cons in Hx as [->|Hx]; [done|].
      destruct (IH (k + 1) Hx) as (i & Hi & Hl & Hfirst).
      exists (S i). split; [lia|]. split; [done|].
      intros [|j] Hj; simpl; [congruence|]. apply Hfirst. lia.
Qed.

Lemma indexOf_from_ge (l : list A) (x : A) (k : Z) : x ∈ l → k ≤ indexOf_from l x k.
Proof. intros Hx. destruct (indexOf_from_elem_of l x k Hx) as (i & -> & _). lia. Qed.

Lemma indexOf_from_neg (l : list A) (x : A) (k : Z) :
  0 ≤ k → indexOf_from l x k < k ↔ x ∉ l.
Proof.
  intros Hk. split.
  - intros Hlt Hx. apply (indexOf_from_ge l x k) in Hx. lia.
  - intros Hx. rewrite indexOf_from_not_elem_of by done. lia.
Qed.

(** The order of first occurrences is the same in [l] and in the elements of
    [l] that satisfy [P], for two elements that satisfy [P]. *)
Lemma indexOf_from_filter (P : A → Prop) `{∀ x, Decision (P x)}
    (a b : A) (l : list A) (k k' : Z) :
  P a → P b → 0 ≤ k → 0 ≤ k' →
  indexOf_from l a k < indexOf_from l b k ↔
  indexOf_from (filter P l) a k' < indexOf_from (filter P l) b k'.
Proof.
  intros Ha Hb. revert k k'.
  induction l as [|y l IH]; intros k k' Hk Hk'; [done|].
  rewrite filter_cons. destruct (decide (P y)) as [Hy|Hy]; simpl.
  - destruct (decide (y = a)) as [Eya|Hya]; destruct (decide (y = b)) as [Eyb|Hyb].
    + lia.
    + destruct (decide (b ∈ l)) as [Hbl|Hbl].
      * pose proof (indexOf_from_ge l b (k + 1) Hbl).
        assert (b ∈ filter P l) as Hbf by (by apply list_elem_of_filter).
        pose proof (indexOf_from_ge _ b (k' + 1) Hbf). lia.
      * assert (b ∉ filter P l) as Hbf by (rewrite list_elem_of_filter; tauto).
        rewrite !(indexOf_from_not_elem_of _ b) by done. lia.
    + destruct (decide (a ∈ l)) as [Hal|Hal].
      * pose proof (indexOf_from_ge l a (k + 1) Hal).
        assert (a ∈ filter P l) as Haf by (by apply list_elem_of_filter).
        pose proof (indexOf_from_ge _ a (k' + 1) Haf). lia.
      * assert (a ∉ filter P l) as Haf by (rewrite list_elem_of_filter; tauto).
        rewrite !(indexOf_from_not_elem_of _ a) by done. lia.
    + apply IH; lia.
  - rewrite !decide_False by congruence. apply IH; lia.
Qed.

Variable comparefn : A → A → option Z.
Hypothesis Hc : Consistent comparefn.

(** In an ascending array a strictly smaller element is found first. *)
Lemma indexOf_from_sorted_lt (a b : A) (l : list A) (k : Z) :
  StronglySorted (cmp_le comparefn) l → a ∈ l → b ∈ l →
  SortCompare comparefn a b < 0 →
  indexOf_from l a k < indexOf_from l b k.
Proof.
  intros Hs Ha Hb Hab. revert k.
  induction Hs as [|y l Hs IH Hy]; intros k; [by apply elem_of_nil in Ha|].
  simpl. rewrite Forall_forall in Hy.
  destruct (decide (y = a)) as [->|Hya].
  - rewrite decide_False.
    + apply elem_of_cons in Hb as [->|Hb].
      * rewrite (cmp_refl _ Hc) in Hab. lia.
      * pose proof (indexOf_from_ge l b (k + 1) Hb). lia.
    + intros ->. rewrite (cmp_refl _ Hc) in Hab. lia.
  - apply elem_of_cons in Ha as [->|Ha]; [done|].
    destruct (decide (y = b)) as [->|Hyb].
    + pose proof (Hy a Ha) as Hba. unfold cmp_le in Hba.
      pose proof (cmp_flip_lt comparefn Hc a b Hab). lia.
    + apply elem_of_cons in Hb as [->|Hb]; [done|]. by apply IH.
Qed.

End IndexOfFacts.

(** * The bindings of [_setupFormView] *)

Section SetupFormViewFacts.
Context {Position : Type}.
Variable compareWith : Position → Position → FindAndReplaceUI.PositionRelation.
Variable deref : nat → FindAndReplaceUI.Result (Position := Position).

Import JSArray FindAndReplaceUI.

Local Abbreviation cmpfn := (comparefn compareWith deref).
Local Abbreviation offsetOf := (computeHighlightOffset compareWith deref).
Local Abbreviation start r := (getStart (marker (deref r))).

Lemma SortCompare_before (a b : ref) :
  compareWith (start a) (start b) = before → SortCompare cmpfn a b = -1.
Proof. unfold SortCompare, comparefn. by intros ->. Qed.

Lemma SortCompare_same (a b : ref) :
  compareWith (start a) (start b) = same → SortCompare cmpfn a b = 0.
Proof. unfold SortCompare, comparefn. by intros ->. Qed.

Lemma SortCompare_after (a b : ref) :
  compareWith (start a) (start b) = after → SortCompare cmpfn a b = 1.
Proof. unfold SortCompare, comparefn. by intros ->. Qed.

Lemma cmp_le_not_after (a b : ref) : cmp_le cmpfn a b ↔ not_after compareWith deref a b.
Proof.
  unfold cmp_le, not_after, SortCompare, comparefn.
  destruct (compareWith _ _); simpl; split; (done || lia || congruence).
Qed.

Lemma sort_SortedByPosition (R : list ref) :
  Consistent cmpfn → SortedByPosition compareWith deref R (sort cmpfn R).
Proof.
  intros Hc. split; [apply sort_perm|].
  pose proof (sort_sorted cmpfn Hc R) as Hs.
  induction Hs as [|x l Hs IH Hx]; constructor; [done|].
  eapply Forall_impl; [exact Hx|]. intros y. apply cmp_le_not_after.
Qed.

(** What one run of the callback does to the heap and what it returns. *)
Lemma computeHighlightOffset_run (st : EditingState) (h : ref) (σ : Heap) (R : list ref) :
  σ !! results st = Some R →
  offsetOf st (Some h) σ =
    Some (indexOf (sort cmpfn R) h + 1, <[fresh (dom σ) := sort cmpfn R]> σ).
Proof.
  intros HR.
  unfold computeHighlightOffset, mbind, JS_bind, Array_from, Array_sort, Array_indexOf.
  rewrite HR. simpl. rewrite lookup_insert_eq. simpl.
  rewrite lookup_insert_eq. simpl. by rewrite insert_insert_eq.
Qed.

Lemma computeHighlightOffset_none (st : EditingState) (σ : Heap) :
  offsetOf st None σ = Some (0, σ).
Proof. done. Qed.

Lemma fresh_lookup_ne (σ : Heap) (l : loc) : l ∈ dom σ → fresh (dom σ) ≠ l.
Proof. intros Hl <-. by apply (is_fresh (dom σ)). Qed.

(** C2. With no highlighted result the callback returns 0, whatever the
    result set is (the empty one included), and leaves the heap as it is. *)
Theorem highlightOffset_none_is_zero (st : EditingState) (σ : Heap) :
  offsetOf st None σ = Some (0, σ) ∧
  offsetOf st None (<[results st := []]> σ) = Some (0, <[results st := []]> σ).
Proof. split; apply computeHighlightOffset_none. Qed.

(** C5. The callback does not change the result set: after it has run, the
    collection holds the same results in the same order, and so does every
    other array that existed before; the sorted array is a new one. *)
Theorem highlightOffset_keeps_results
    (st : EditingState) (σ : Heap) (R : list ref) (h : option ref) :
  σ !! results st = Some R →
  ∃ (o : Z) (σ' : Heap),
    offsetOf st h σ = Some (o, σ') ∧
    σ' !! results st = Some R ∧
    ∀ l : loc, l ∈ dom σ → σ' !! l = σ !! l.
Proof.
  intros HR. destruct h as [h|].
  - eexists _, _. split; [by apply computeHighlightOffset_run|].
    assert (∀ l : loc, l ∈ dom σ →
              <[fresh (dom σ) := sort cmpfn R]> σ !! l = σ !! l) as Hframe.
    { intros l Hl. apply lookup_insert_ne. by apply fresh_lookup_ne. }
    split; [|done]. rewrite Hframe; [done|]. apply elem_of_dom. by exists R.
  - exists 0, σ. by rewrite computeHighlightOffset_none.
Qed.

(** C7. On every ['change'] of the result set the listener sets
    [matchCount] to the number of results the set holds then. *)
Theorem matchCount_is_results_length (ui : UI) (σ : Heap) (R : list ref) :
  σ !! results (editingState ui) = Some R →
  ∃ ui' : UI,
    dispatch compareWith deref ResultsChange ui σ = Some (ui', σ) ∧
    matchCount (formView ui') = Z.of_nat (length R) ∧
    highlightOffset (formView ui') = highlightOffset (formView ui) ∧
    editingState ui' = editingState ui ∧
    fired ui' = fired ui.
Proof.
  intros HR.
  exists {| formView := {| highlightOffset := highlightOffset (formView ui);
                           matchCount := Z.of_nat (length R) |};
            editingState := editingState ui;
            fired := fired ui |}.
  split; [|done].
  unfold dispatch, on_results_change, mbind, JS_bind, Collection_length.
  by rewrite HR.
Qed.

(** C8. For a highlighted result that is not in the result set, [indexOf]
    on the sorted array is [-1] and the callback returns [0]. *)
Theorem highlightOffset_stale_is_zero
    (st : EditingState) (σ : Heap) (R : list ref) (h : ref) :
  σ !! results st = Some R → h ∉ R →
  indexOf (sort cmpfn R) h = -1 ∧
  ∃ σ' : Heap, offsetOf st (Some h) σ = Some (0, σ').
Proof.
  intros HR Hh.
  assert (indexOf (sort cmpfn R) h = -1) as Hi.
  { apply indexOf_from_not_elem_of. by rewrite sort_elem_of. }
  split; [done|]. eexists.
  rewrite (computeHighlightOffset_run st h σ R HR), Hi. done.
Qed.

(** One notification on a heap where the collection exists: the handlers do
    not throw, leave the collection alone, and log as the notification says. *)
Lemma dispatch_step (n : Notification) (ui : UI) (σ : Heap) (R : list ref) :
  σ !! results (editingState ui) = Some R →
  ∃ (ui' : UI) (σ' : Heap),
    dispatch compareWith deref n ui σ = Some (ui', σ') ∧
    results (editingState ui') = results (editingState ui) ∧
    σ' !! results (editingState ui) = Some R ∧
    resets (fired ui') = (resets (fired ui) + dirtyings [n])%nat ∧
    matchCount (formView ui') =
      (if decide (n = ResultsChange) then Z.of_nat (length R)
       else matchCount (formView ui)).
Proof.
  intros HR. destruct n as [h| |e|b]; simpl.
  - destruct h as [h|].
    + unfold mbind, JS_bind.
      rewrite (computeHighlightOffset_run _ h σ R) by done.
      eexists _, _. split; [done|]. simpl. split; [done|].
      split; [|split; [unfold dirtyings; simpl; lia|done]].
      rewrite lookup_insert_ne; [done|].
      apply fresh_lookup_ne, elem_of_dom. by exists R.
    + eexists _, _. split; [done|]. simpl.
      split; [done|]. split; [done|]. split; [unfold dirtyings; simpl; lia|done].
  - unfold on_results_change, mbind, JS_bind, Collection_length. rewrite HR.
    eexists _, _. split; [done|]. simpl.
    split; [done|]. split; [done|]. split; [unfold dirtyings; simpl; lia|done].
  - eexists _, _. split; [done|]. simpl.
    split; [done|]. split; [done|]. split; [|done].
    unfold dirtyings, resets. simpl. rewrite Nat.add_0_r.
    destruct e; simpl; try done;
      by rewrite filter_app, length_app, Nat.add_0_r.
  - eexists _, _. split; [done|]. simpl.
    split; [done|]. split; [done|]. split; [|done].
    unfold dirtyings, resets. destruct b; simpl; [|lia].
    by rewrite filter_app, length_app.
Qed.

(** X7. Any run of notifications: the handlers do not throw and never change
    the collection; [searchReseted] is fired once per change of [isDirty] to
    [true]; and [matchCount] is the number of results as soon as a ['change']
    of the collection was delivered, and is not touched before. *)
Lemma dispatch_all_run (ns : list Notification) (ui : UI) (σ : Heap) (R : list ref) :
  σ !! results (editingState ui) = Some R →
  ∃ (ui' : UI) (σ' : Heap),
    dispatch_all compareWith deref ns ui σ = Some (ui', σ') ∧
    results (editingState ui') = results (editingState ui) ∧
    σ' !! results (editingState ui) = Some R ∧
    resets (fired ui') = (resets (fired ui) + dirtyings ns)%nat ∧
    matchCount (formView ui') =
      (if decide (ResultsChange ∈ ns) then Z.of_nat (length R)
       else matchCount (formView ui)).
Proof.
  revert ui σ. induction ns as [|n ns IH]; intros ui σ HR.
  - exists ui, σ. split; [done|]. split; [done|]. split; [done|].
    split; [unfold dirtyings; simpl; lia|].
    rewrite decide_False; [done|]. apply not_elem_of_nil.
  - destruct (dispatch_step n ui σ R HR) as (ui1 & σ1 & Hn & Hres1 & HR1 & Hf1 & Hm1).
    rewrite <- Hres1 in HR1.
    destruct (IH ui1 σ1 HR1) as (ui' & σ' & Hns & Hres & HR' & Hf & Hm).
    exists ui', σ'. simpl. unfold mbind, JS_bind. rewrite Hn.
    split; [done|]. split; [congruence|]. split; [by rewrite <- Hres1|].
    split.
    + rewrite Hf, Hf1. unfold dirtyings.
      rewrite (filter_cons _ n ns), (filter_cons _ n []), filter_nil.
      destruct (decide (n = IsDirtyChange true)); simpl; lia.
    + rewrite Hm, Hm1.
      destruct (decide (ResultsChange ∈ ns)) as [Hin|Hnin].
      * rewrite decide_True; [done|]. by right.
      * destruct (decide (n = ResultsChange)) as [->|Hne].
        -- rewrite decide_True; [done|]. by left.
        -- rewrite decide_False; [done|].
           intros [?|?]%elem_of_cons; done.
Qed.

(** C9. When [isDirty] changes to [true] the plugin fires [searchReseted],
    once; when it changes to [false] the plugin fires nothing. *)
Theorem searchReseted_on_dirty (isDirty : bool) (ui : UI) (σ : Heap) :
  ∃ ui' : UI,
    dispatch compareWith deref (IsDirtyChange isDirty) ui σ = Some (ui', σ) ∧
    formView ui' = formView ui ∧
    editingState ui' = editingState ui ∧
    fired ui' = (if isDirty then fired ui ++ [searchReseted] else fired ui).
Proof. eexists. split; [done|]. by destruct isDirty. Qed.

End SetupFormViewFacts.

(** * Positions that are totally ordered give a consistent comparator *)

Section ThreeWay.
Context {Position : Type}.
Variable compareWith : Position → Position → FindAndReplaceUI.PositionRelation.
Variable deref : nat → FindAndReplaceUI.Result (Position := Position).

Import JSArray FindAndReplaceUI.

Hypothesis three_way : ∀ p q, compareWith p q ≠ different.
Hypothesis same_refl : ∀ p, compareWith p p = same.
Hypothesis same_sym : ∀ p q, compareWith p q = same → compareWith q p = same.
Hypothesis same_trans : ∀ p q r,
  compareWith p q = same → compareWith q r = same → compareWith p r = same.
Hypothesis before_trans : ∀ p q r,
  compareWith p q = before → compareWith q r = before → compareWith p r = before.
Hypothesis after_trans : ∀ p q r,
  compareWith p q = after → compareWith q r = after → compareWith p r = after.

Local Abbreviation cmpfn := (comparefn compareWith deref).
Local Abbreviation start r := (getStart (marker (deref r))).

Lemma SortCompare_relation (a b : ref) :
  (SortCompare cmpfn a b = 0 ↔ compareWith (start a) (start b) = same) ∧
  (SortCompare cmpfn a b < 0 ↔ compareWith (start a) (start b) = before) ∧
  (0 < SortCompare cmpfn a b ↔ compareWith (start a) (start b) = after).
Proof.
  unfold SortCompare, comparefn.
  pose proof (three_way (start a) (start b)) as Hd.
  destruct (compareWith (start a) (start b)); simpl;
    repeat split; (done || lia || congruence).
Qed.

Lemma comparefn_consistent : Consistent cmpfn.
Proof.
  split.
  - intros a. apply SortCompare_relation, same_refl.
  - intros a b. rewrite !(proj1 (SortCompare_relation _ _)). apply same_sym.
  - intros a b c. rewrite !(proj1 (SortCompare_relation _ _)). apply same_trans.
  - intros a b c. rewrite !(proj1 (proj2 (SortCompare_relation _ _))). apply before_trans.
  - intros a b c. rewrite !(proj2 (proj2 (SortCompare_relation _ _))). apply after_trans.
Qed.

End ThreeWay.

Lemma offsets_consistent (deref : nat → FindAndReplaceUI.Result) :
  JSArray.Consistent (FindAndReplaceUI.comparefn OffsetPositions.compareWith deref).
Proof.
  apply comparefn_consistent; unfold OffsetPositions.compareWith.
  - intros p q. by destruct (p ?= q).
  - intros p. by rewrite Z.compare_refl.
  - intros p q. destruct (p ?= q) eqn:E; try done.
    apply Z.compare_eq in E as ->. by rewrite Z.compare_refl.
  - intros p q r. destruct (p ?= q) eqn:E1; try done.
    apply Z.compare_eq in E1 as ->. done.
  - intros p q r. destruct (p ?= q) eqn:E1; try done.
    destruct (q ?= r) eqn:E2; try done. intros _ _.
    rewrite Z.compare_lt_iff in E1, E2.
    assert (p < r) as ->%Z.compare_lt_iff by lia. done.
  - intros p q r. destruct (p ?= q) eqn:E1; try done.
    destruct (q ?= r) eqn:E2; try done. intros _ _.
    rewrite Z.compare_gt_iff in E1, E2.
    assert (r < p) as ->%Z.compare_gt_iff by lia. done.
Qed.

(** * The scenario of the spec, and instances of the theorems *)

Section Scenarios.

Import JSArray FindAndReplaceUI Scenario.

Local Abbreviation byOffset := (comparefn OffsetPositions.compareWith).
Local Abbreviation offsetOf := (computeHighlightOffset OffsetPositions.compareWith).

(** C6. With [resultA] at position 10, [resultB] at 5 and [resultC] at 20
    inserted in this order and [resultB] highlighted, the sorted array is
    [resultB; resultA; resultC] and the callback returns 1. *)
Theorem highlightOffset_scenario (st : EditingState) (σ : Heap) :
  σ !! results st = Some [resultA; resultB; resultC] →
  sort (byOffset deref) [resultA; resultB; resultC] = [resultB; resultA; resultC] ∧
  ∃ σ' : Heap, offsetOf deref st (Some resultB) σ = Some (1, σ').
Proof.
  intros HR. split; [by vm_compute|].
  eexists. by rewrite (computeHighlightOffset_run _ _ st resultB σ _ HR).
Qed.

Example highlightOffset_scenario_A :
  fst <$> offsetOf deref state (Some resultA) heap = Some 2.
Proof. by vm_compute. Qed.

Example highlightOffset_scenario_C :
  fst <$> offsetOf deref state (Some resultC) heap = Some 3.
Proof. by vm_compute. Qed.

Example highlightOffset_scenario_heap :
  snd <$> offsetOf deref state (Some resultB) heap =
    Some {[ 0%nat := [resultA; resultB; resultC]; 1%nat := [resultB; resultA; resultC] ]}.
Proof. by vm_compute. Qed.

Example highlightOffset_scenario_tied :
  fst <$> offsetOf deref_tied state (Some resultA) heap = Some 2 ∧
  fst <$> offsetOf deref_tied state (Some resultB) heap = Some 3 ∧
  fst <$> offsetOf deref_tied state (Some resultC) heap = Some 1.
Proof. by vm_compute. Qed.

Example highlightOffset_empty :
  offsetOf deref state None {[ 0%nat := [] ]} = Some (0, {[ 0%nat := [] ]}) ∧
  dispatch OffsetPositions.compareWith deref ResultsChange ui {[ 0%nat := [] ]} =
    Some (ui, {[ 0%nat := [] ]}).
Proof. by vm_compute. Qed.

Lemma highlightOffset_scenario_witness :
  heap !! results state = Some [resultA; resultB; resultC] ∧
  sort (byOffset deref) [resultA; resultB; resultC] = [resultB; resultA; resultC] ∧
  ∃ σ' : Heap, offsetOf deref state (Some resultB) heap = Some (1, σ').
Proof.
  split; [reflexivity|].
  apply (highlightOffset_scenario state heap). reflexivity.
Defined.

Lemma highlightOffset_keeps_results_witness :
  heap !! results state = Some [resultA; resultB; resultC] ∧
  ∃ (o : Z) (σ' : Heap),
    offsetOf deref state (Some resultB) heap = Some (o, σ') ∧
    σ' !! results state = Some [resultA; resultB; resultC] ∧
    ∀ l : loc, l ∈ dom heap → σ' !! l = heap !! l.
Proof.
  split; [reflexivity|].
  apply (highlightOffset_keeps_results OffsetPositions.compareWith deref
           state heap [resultA; resultB; resultC] (Some resultB)).
  reflexivity.
Defined.

Lemma matchCount_is_results_length_witness :
  heap !! results (editingState ui) = Some [resultA; resultB; resultC] ∧
  ∃ ui' : UI,
    dispatch OffsetPositions.compareWith deref ResultsChange ui heap = Some (ui', heap) ∧
    matchCount (formView ui') = Z.of_nat (length [resultA; resultB; resultC]) ∧
    highlightOffset (formView ui') = highlightOffset (formView ui) ∧
    editingState ui' = editingState ui ∧
    fired ui' = fired ui.
Proof.
  split; [reflexivity|].
  apply (matchCount_is_results_length OffsetPositions.compareWith deref
           ui heap [resultA; resultB; resultC]).
  reflexivity.
Defined.

Lemma highlightOffset_stale_is_zero_witness :
  (7%nat ∉ [resultA; resultB; resultC]) ∧
  indexOf (sort (byOffset deref) [resultA; resultB; resultC]) 7%nat = -1 ∧
  ∃ σ' : Heap, offsetOf deref state (Some 7%nat) heap = Some (0, σ').
Proof.
  split; [compute_done|].
  apply (highlightOffset_stale_is_zero OffsetPositions.compareWith deref
           state heap [resultA; resultB; resultC] 7%nat).
  - reflexivity.
  - compute_done.
Defined.

End Scenarios.

(** * The default image styles *)

Section DefaultConfigurationFacts.
Context {Config : Type}.
Variable define : string → option (gmap string (list string)) → Config → Config.

Import ImageStyleEditing.

(** C10. The default that [_defineDefaultConfiguration] defines for
    ['image.styles'] is decided by which of [ImageBlock] and [ImageInline] are
    loaded: both, the six alignments with the two groups; only [ImageBlock],
    [full] and [side]; only [ImageInline], the three inline alignments;
    neither, [undefined]. *)
Theorem default_image_styles (loadedPlugins : gset string) (config : Config) :
  ("ImageBlock" ∈ loadedPlugins ∧ "ImageInline" ∈ loadedPlugins →
     _defineDefaultConfiguration define loadedPlugins config =
       define "image.styles"
         (Some {[ "arrangements" :=
                    [ "alignInline"; "alignLeft"; "alignRight";
                      "alignCenter"; "alignBlockLeft"; "alignBlockRight" ];
                  "groups" := [ "inParagraph"; "betweenParagraphs" ] ]})
         config) ∧
  ("ImageBlock" ∈ loadedPlugins ∧ ("ImageInline" ∉ loadedPlugins) →
     _defineDefaultConfiguration define loadedPlugins config =
       define "image.styles" (Some {[ "arrangements" := [ "full"; "side" ] ]}) config) ∧
  (("ImageBlock" ∉ loadedPlugins) ∧ "ImageInline" ∈ loadedPlugins →
     _defineDefaultConfiguration define loadedPlugins config =
       define "image.styles"
         (Some {[ "arrangements" := [ "alignInline"; "alignLeft"; "alignRight" ] ]})
         config) ∧
  (("ImageBlock" ∉ loadedPlugins) ∧ ("ImageInline" ∉ loadedPlugins) →
     _defineDefaultConfiguration define loadedPlugins config =
       define "image.styles" None config).
Proof.
  unfold _defineDefaultConfiguration, styles.
  repeat split; intros [Hb Hi].
  - by rewrite !bool_decide_eq_true_2.
  - by rewrite (bool_decide_eq_true_2 _ Hb), (bool_decide_eq_false_2 _ Hi).
  - by rewrite (bool_decide_eq_false_2 _ Hb), (bool_decide_eq_true_2 _ Hi).
  - by rewrite (bool_decide_eq_false_2 _ Hb), (bool_decide_eq_false_2 _ Hi).
Qed.

End DefaultConfigurationFacts.

(** * More on [indexOf] and on the index in the sorted array *)

Section RankFacts.
Context {A : Type} `{EqDecision A}.

Import JSArray.

Lemma indexOf_from_shift (l : list A) (x : A) (k d : Z) :
  x ∈ l → indexOf_from l x (k + d) = indexOf_from l x k + d.
Proof.
  revert k. induction l as [|y l IH]; intros k Hx; simpl.
  - by apply elem_of_nil in Hx.
  - case_decide as Hy; [done|].
    apply elem_of_cons in Hx as [->|Hx]; [done|].
    replace (k + d + 1) with (k + 1 + d) by lia. by apply IH.
Qed.

Lemma indexOf_lookup (l : list A) (x : A) :
  x ∈ l → ∃ i : nat, indexOf l x = Z.of_nat i ∧ l !! i = Some x.
Proof.
  intros Hx. destruct (indexOf_from_elem_of l x 0 Hx) as (i & Hi & Hl & _).
  exists i. split; [unfold indexOf; lia|done].
Qed.

Lemma indexOf_inj (l : list A) (x y : A) :
  x ∈ l → y ∈ l → indexOf l x = indexOf l y → x = y.
Proof.
  intros Hx Hy Heq.
  destruct (indexOf_lookup l x Hx) as (i & Hi & Hli).
  destruct (indexOf_lookup l y Hy) as (j & Hj & Hlj).
  assert (i = j) as -> by lia. congruence.
Qed.

Lemma indexOf_NoDup_lookup (l : list A) (x : A) (i : nat) :
  NoDup l → l !! i = Some x → indexOf l x = Z.of_nat i.
Proof.
  intros Hnd Hl.
  assert (x ∈ l) as Hx by (apply list_elem_of_lookup; eauto).
  destruct (indexOf_lookup l x Hx) as (j & Hj & Hlj).
  rewrite Hj. f_equal. by apply (NoDup_lookup l j i x).
Qed.

Variable comparefn : A → A → option Z.
Hypothesis Hc : Consistent comparefn.

Local Abbreviation cmp := (SortCompare comparefn).

(** In an ascending array the index of the first [x] is the number of
    elements smaller than [x] plus the index of [x] among the elements tied
    with it. *)
Lemma indexOf_from_sorted_rank (l : list A) (x : A) (k : Z) :
  StronglySorted (cmp_le comparefn) l → x ∈ l →
  indexOf_from l x k =
    k + Z.of_nat (length (filter (λ y, cmp y x < 0) l))
      + indexOf_from (filter (ties comparefn x) l) x 0.
Proof.
  intros Hs. revert k. induction Hs as [|y l Hs IH Hy]; intros k Hx.
  - by apply elem_of_nil in Hx.
  - rewrite Forall_forall in Hy. simpl.
    destruct (decide (y = x)) as [->|Hyx].
    + rewrite filter_cons_False by (rewrite (cmp_refl _ Hc); lia).
      rewrite filter_cons_True by apply (cmp_refl _ Hc).
      simpl. rewrite decide_True by done.
      assert (filter (λ y, cmp y x < 0) l = []) as ->; [|simpl; lia].
      apply elem_of_nil_inv. intros z [Hz Hzl]%list_elem_of_filter.
      pose proof (Hy z Hzl) as Hxz. unfold cmp_le in Hxz.
      pose proof (cmp_flip_lt comparefn Hc z x Hz). lia.
    + apply elem_of_cons in Hx as [->|Hx]; [done|].
      rewrite (IH (k + 1) Hx).
      pose proof (Hy x Hx) as Hle. unfold cmp_le in Hle.
      destruct (decide (cmp y x < 0)) as [Hlt|Hnlt].
      * rewrite (filter_cons_True (λ y, cmp y x < 0)) by done.
        rewrite (filter_cons_False (ties comparefn x)).
        { simpl. lia. }
        unfold ties. intros Hxy. apply (cmp_sym _ Hc) in Hxy. lia.
      * rewrite (filter_cons_False (λ y, cmp y x < 0)) by done.
        assert (ties comparefn x y) as Hty.
        { unfold ties. apply (cmp_sym _ Hc). lia. }
        rewrite (filter_cons_True (ties comparefn x)) by done.
        simpl. rewrite decide_False by done.
        assert (x ∈ filter (ties comparefn x) l) as Hxf.
        { apply list_elem_of_filter. split; [apply (cmp_refl _ Hc)|done]. }
        rewrite (indexOf_from_shift _ x 0 1 Hxf). lia.
Qed.

Lemma indexOf_sort_rank (l : list A) (x : A) :
  x ∈ l →
  indexOf (sort comparefn l) x =
    Z.of_nat (length (filter (λ y, cmp y x < 0) l))
      + indexOf (filter (ties comparefn x) l) x.
Proof.
  intros Hx. unfold indexOf.
  rewrite (indexOf_from_sorted_rank (sort comparefn l) x 0).
  - rewrite (sort_stable comparefn Hc x l).
    rewrite (sort_perm comparefn l). lia.
  - by apply sort_sorted.
  - by apply sort_elem_of.
Qed.

End RankFacts.

(** * More on the [highlightOffset] binding *)

Section HighlightOffsetFacts.
Context {Position : Type}.
Variable compareWith : Position → Position → FindAndReplaceUI.PositionRelation.
Variable deref : nat → FindAndReplaceUI.Result (Position := Position).

Import JSArray FindAndReplaceUI FindAndReplaceDropdown.

Local Abbreviation cmpfn := (comparefn compareWith deref).
Local Abbreviation offsetOf := (computeHighlightOffset compareWith deref).
Local Abbreviation start r := (getStart (marker (deref r))).

Lemma indexOf_bounds (l : list ref) (x : ref) :
  -1 ≤ indexOf l x < Z.of_nat (length l) ∧ (indexOf l x = -1 ↔ x ∉ l).
Proof.
  destruct (decide (x ∈ l)) as [Hx|Hx].
  - destruct (indexOf_lookup l x Hx) as (i & Hi & Hl).
    apply lookup_lt_Some in Hl. split; [lia|]. split; [lia|done].
  - unfold indexOf. rewrite indexOf_from_not_elem_of by done.
    split; [lia|done].
Qed.

Lemma SortCompare_lt_before (a b : ref) :
  SortCompare cmpfn a b < 0 ↔ compareWith (start a) (start b) = before.
Proof.
  unfold SortCompare, comparefn.
  destruct (compareWith _ _); simpl; split; (done || lia).
Qed.

Lemma computeHighlightOffset_results (st : EditingState) (h : ref) (σ : Heap) (R : list ref) :
  σ !! results st = Some R →
  <[fresh (dom σ) := sort cmpfn R]> σ !! results st = Some R.
Proof.
  intros HR. rewrite lookup_insert_ne; [done|].
  apply fresh_lookup_ne, elem_of_dom. by exists R.
Qed.

(** X1. Calling the callback again, on the heap the first call left behind,
    returns the same offset: the array that a call allocates does not
    influence the next call. *)
Theorem highlightOffset_repeatable
    (st : EditingState) (σ : Heap) (R : list ref) (h : option ref) :
  σ !! results st = Some R →
  ∃ (o : Z) (σ1 σ2 : Heap),
    offsetOf st h σ = Some (o, σ1) ∧ offsetOf st h σ1 = Some (o, σ2).
Proof.
  intros HR. destruct h as [h|].
  - eexists _, _, _. split; [by apply computeHighlightOffset_run|].
    apply computeHighlightOffset_run. by apply computeHighlightOffset_results.
  - by exists 0, σ, σ.
Qed.

(** X2. The offset of a highlighted result of the set is one more than the
    number of results positioned before it plus the number of results that
    tie with it (same position) and were inserted before it. *)
Theorem highlightOffset_rank
    (st : EditingState) (σ : Heap) (R : list ref) (h : ref) :
  Consistent cmpfn → σ !! results st = Some R → h ∈ R →
  ∃ σ' : Heap,
    offsetOf st (Some h) σ =
      Some (1 + Z.of_nat (length (filter (λ r, compareWith (start r) (start h) = before) R))
              + indexOf (filter (ties cmpfn h) R) h, σ').
Proof.
  intros Hc HR Hh. eexists.
  rewrite (computeHighlightOffset_run _ _ st h σ R HR).
  rewrite (indexOf_sort_rank cmpfn Hc R h Hh).
  rewrite (list_filter_iff (λ y : ref, SortCompare cmpfn y h < 0)
             (λ r : ref, compareWith (start r) (start h) = before)).
  - do 2 f_equal; lia.
  - intros r. apply SortCompare_lt_before.
Qed.

(** X3. Two different results of the set never get the same offset. *)
Theorem highlightOffset_injective
    (st : EditingState) (σ : Heap) (R : list ref) (h1 h2 : ref) :
  σ !! results st = Some R → h1 ∈ R → h2 ∈ R → h1 ≠ h2 →
  ∃ (o1 o2 : Z) (σ1 σ2 : Heap),
    offsetOf st (Some h1) σ = Some (o1, σ1) ∧
    offsetOf st (Some h2) σ = Some (o2, σ2) ∧
    o1 ≠ o2.
Proof.
  intros HR H1 H2 Hne. eexists _, _, _, _.
  split; [by apply computeHighlightOffset_run|].
  split; [by apply computeHighlightOffset_run|].
  intros Heq. apply Hne.
  apply (indexOf_inj (sort cmpfn R)); [by apply sort_elem_of..|lia].
Qed.

(** X4. When no result is in the set twice, every number from 1 to the size
    of the set is the offset of a result of the set. *)
Theorem highlightOffset_surjective
    (st : EditingState) (σ : Heap) (R : list ref) (k : Z) :
  σ !! results st = Some R → NoDup R → 1 ≤ k ≤ Z.of_nat (length R) →
  ∃ (h : ref) (σ' : Heap), h ∈ R ∧ offsetOf st (Some h) σ = Some (k, σ').
Proof.
  intros HR Hnd Hk.
  assert (Z.to_nat (k - 1) < length (sort cmpfn R))%nat as Hlt
    by (rewrite sort_length; lia).
  apply lookup_lt_is_Some in Hlt as [h Hh].
  exists h. eexists. split.
  - apply (sort_elem_of cmpfn). apply list_elem_of_lookup. eauto.
  - rewrite (computeHighlightOffset_run _ _ st h σ R HR).
    rewrite (indexOf_NoDup_lookup _ h (Z.to_nat (k - 1))); [|by rewrite sort_perm|done].
    do 2 f_equal. lia.
Qed.

(** X5. The offset is between 0 and the size of the set, and it is 0 exactly
    when no result is highlighted or the highlighted result is not in the
    set. *)
Theorem highlightOffset_zero_iff
    (st : EditingState) (σ : Heap) (R : list ref) (h : option ref) :
  σ !! results st = Some R →
  ∃ (o : Z) (σ' : Heap),
    offsetOf st h σ = Some (o, σ') ∧
    0 ≤ o ≤ Z.of_nat (length R) ∧
    (o = 0 ↔ ∀ x : ref, h = Some x → x ∉ R).
Proof.
  intros HR. destruct h as [h|].
  - eexists _, _. split; [by apply computeHighlightOffset_run|].
    destruct (indexOf_bounds (sort cmpfn R) h) as [Hb Hiff].
    rewrite sort_length in Hb. rewrite sort_elem_of in Hiff.
    split; [lia|]. split.
    + intros Ho x [= <-]. apply Hiff. lia.
    + intros Hx. specialize (Hx h eq_refl). apply Hiff in Hx. lia.
  - exists 0, σ. split; [done|]. split; [lia|]. split; [done|by intros].
Qed.

(** X6. When no two different results of the set tie, the offsets do not
    depend on the order in which the results were inserted. *)
Theorem highlightOffset_insertion_order_irrelevant
    (st st' : EditingState) (σ σ' : Heap) (R R' : list ref) (h : option ref) :
  Consistent cmpfn →
  σ !! results st = Some R → σ' !! results st' = Some R' → R ≡ₚ R' →
  (∀ a b : ref, a ∈ R → b ∈ R → a ≠ b →
     compareWith (start a) (start b) = before ∨
     compareWith (start a) (start b) = after) →
  ∃ (o : Z) (σ1 σ2 : Heap),
    offsetOf st h σ = Some (o, σ1) ∧ offsetOf st' h σ' = Some (o, σ2).
Proof.
  intros Hc HR HR' Hp Hstrict. destruct h as [h|]; [|by exists 0, σ, σ'].
  assert (sort cmpfn R = sort cmpfn R') as Hsort.
  { apply (StronglySorted_unique_strong (cmp_le cmpfn)).
    - intros x1 x2 H1%sort_elem_of H2%sort_elem_of H12 H21.
      rewrite <- Hp in H2.
      destruct (decide (x1 = x2)) as [|Hne]; [done|exfalso].
      unfold cmp_le in H12, H21.
      destruct (Hstrict x1 x2 H1 H2 Hne) as [Hb|Ha].
      + apply SortCompare_before in Hb.
        pose proof (cmp_flip_lt cmpfn Hc x1 x2). lia.
      + apply SortCompare_after in Ha. lia.
    - by apply sort_sorted.
    - by apply sort_sorted.
    - by rewrite !sort_perm. }
  eexists _, _, _. split; [by apply computeHighlightOffset_run|].
  rewrite (computeHighlightOffset_run _ _ st' h σ' R' HR'). by rewrite Hsort.
Qed.

End HighlightOffsetFacts.

(** * Runs of notifications *)

Section RunFacts.
Context {Position : Type}.
Variable compareWith : Position → Position → FindAndReplaceUI.PositionRelation.
Variable deref : nat → FindAndReplaceUI.Result (Position := Position).

Import JSArray FindAndReplaceUI FindAndReplaceDropdown.

Local Abbreviation cmpfn := (comparefn compareWith deref).

(** What a notification logs, whenever its handler returns. *)
Lemma dispatch_fired (n : Notification) (ui ui' : UI) (σ σ' : Heap) :
  dispatch compareWith deref n ui σ = Some (ui', σ') →
  fired ui' =
    match n with
    | FormViewEvent e => delegate e (fired ui)
    | IsDirtyChange isDirty => on_change_isDirty isDirty (fired ui)
    | _ => fired ui
    end.
Proof.
  destruct n as [h| |e|b]; simpl; unfold mbind, JS_bind.
  - destruct (computeHighlightOffset _ _ _ _ _) as [[o σ1]|]; [|done].
    by intros [= <- <-].
  - destruct (on_results_change _ _ _) as [[fv σ1]|]; [|done].
    by intros [= <- <-].
  - by intros [= <- <-].
  - by intros [= <- <-].
Qed.

Lemma commandEvents_app (l1 l2 : list PluginEvent) :
  commandEvents (l1 ++ l2) = commandEvents l1 ++ commandEvents l2.
Proof. apply filter_app. Qed.

Lemma commandEvents_step (n : Notification) (ui ui' : UI) (σ σ' : Heap) :
  dispatch compareWith deref n ui σ = Some (ui', σ') →
  commandEvents (fired ui') = commandEvents (fired ui) ++ delegated [n].
Proof.
  intros Hn. rewrite (dispatch_fired n ui ui' σ σ' Hn).
  destruct n as [h| |e|b]; simpl; try by rewrite app_nil_r.
  - destruct e; simpl; rewrite ?commandEvents_app, ?app_nil_r; done.
  - destruct b; simpl; rewrite ?commandEvents_app, ?app_nil_r; done.
Qed.

(** X8. Over any run of notifications the plugin fires again every
    [findNext], [findPrevious], [replace] and [replaceAll] of the form view,
    with its text, in the order they came, and fires no other such event. *)
Theorem delegated_in_order (ns : list Notification) (ui : UI) (σ : Heap) (R : list ref) :
  σ !! results (editingState ui) = Some R →
  ∃ (ui' : UI) (σ' : Heap),
    dispatch_all compareWith deref ns ui σ = Some (ui', σ') ∧
    commandEvents (fired ui') = commandEvents (fired ui) ++ delegated ns.
Proof.
  revert ui σ. induction ns as [|n ns IH]; intros ui σ HR.
  - exists ui, σ. split; [done|]. by rewrite app_nil_r.
  - destruct (dispatch_step compareWith deref n ui σ R HR)
      as (ui1 & σ1 & Hn & Hres1 & HR1 & _).
    rewrite <- Hres1 in HR1.
    destruct (IH ui1 σ1 HR1) as (ui' & σ' & Hns & Hf).
    exists ui', σ'. split.
    + simpl. unfold mbind, JS_bind. by rewrite Hn.
    + rewrite Hf, (commandEvents_step n ui ui1 σ σ1 Hn), <- app_assoc.
      f_equal. unfold delegated. by rewrite <- omap_app.
Qed.

(** The form's two numbers after one notification. *)
Lemma dispatch_display (n : Notification) (ui : UI) (σ : Heap) (R : list ref) :
  σ !! results (editingState ui) = Some R →
  ∃ (ui' : UI) (σ' : Heap),
    dispatch compareWith deref n ui σ = Some (ui', σ') ∧
    results (editingState ui') = results (editingState ui) ∧
    σ' !! results (editingState ui) = Some R ∧
    matchCount (formView ui') =
      (if decide (n = ResultsChange) then Z.of_nat (length R)
       else matchCount (formView ui)) ∧
    highlightOffset (formView ui') =
      match n with
      | HighlightedResultChange (Some h) => indexOf (sort cmpfn R) h + 1
      | HighlightedResultChange None => 0
      | _ => highlightOffset (formView ui)
      end.
Proof.
  intros HR.
  destruct (dispatch_step compareWith deref n ui σ R HR)
    as (ui' & σ' & Hn & Hres & HR' & _ & Hm).
  exists ui', σ'. split; [done|]. split; [done|]. split; [done|]. split; [done|].
  clear Hm. destruct n as [h| |e|b]; simpl in Hn; unfold mbind, JS_bind in Hn.
  - destruct h as [h|].
    + rewrite (computeHighlightOffset_run _ _ _ h σ R) in Hn by done.
      by injection Hn as <- <-.
    + by injection Hn as <- <-.
  - unfold on_results_change, mbind, JS_bind, Collection_length in Hn.
    rewrite HR in Hn. by injection Hn as <- <-.
  - by injection Hn as <- <-.
  - by injection Hn as <- <-.
Qed.

(** X10. "Match X of N": if the form shows the size of the set as N and an
    offset X with 0 <= X <= N, it still does after any run of notifications
    on a heap where the collection holds the same results. *)
Theorem display_invariant (ns : list Notification) (ui : UI) (σ : Heap) (R : list ref) :
  σ !! results (editingState ui) = Some R →
  matchCount (formView ui) = Z.of_nat (length R) →
  0 ≤ highlightOffset (formView ui) ≤ matchCount (formView ui) →
  ∃ (ui' : UI) (σ' : Heap),
    dispatch_all compareWith deref ns ui σ = Some (ui', σ') ∧
    matchCount (formView ui') = Z.of_nat (length R) ∧
    0 ≤ highlightOffset (formView ui') ≤ matchCount (formView ui').
Proof.
  revert ui σ. induction ns as [|n ns IH]; intros ui σ HR Hm Ho.
  - by exists ui, σ.
  - destruct (dispatch_display n ui σ R HR) as (ui1 & σ1 & Hn & Hres1 & HR1 & Hm1 & Ho1).
    rewrite <- Hres1 in HR1.
    assert (matchCount (formView ui1) = Z.of_nat (length R)) as Hm1'.
    { rewrite Hm1. by case_decide. }
    assert (0 ≤ highlightOffset (formView ui1) ≤ matchCount (formView ui1)) as Ho1'.
    { rewrite Ho1, Hm1'. destruct n as [[h|]| |e|b]; try lia.
      pose proof (indexOf_from_elem_of (sort cmpfn R) h 0) as Hin.
      destruct (decide (h ∈ sort cmpfn R)) as [Hh|Hh].
      - destruct (Hin Hh) as (i & Hi & Hl & _). apply lookup_lt_Some in Hl.
        rewrite sort_length in Hl. unfold indexOf. lia.
      - unfold indexOf. rewrite indexOf_from_not_elem_of by done. lia. }
    destruct (IH ui1 σ1 HR1 Hm1' Ho1') as (ui' & σ' & Hns & Hm' & Ho').
    exists ui', σ'. split; [|done].
    simpl. unfold mbind, JS_bind. by rewrite Hn.
Qed.

End RunFacts.

(** * The toolbar component *)

Section ComponentFacts.
Context {Position : Type}.
Variable compareWith : Position → Position → FindAndReplaceUI.PositionRelation.
Variable deref : nat → FindAndReplaceUI.Result (Position := Position).

Import JSArray FindAndReplaceUI FindAndReplaceDropdown.

Lemma length_filter_cons {B : Type} (P : B → Prop) `{∀ x, Decision (P x)}
    (x : B) (l : list B) :
  length (filter P (x :: l)) = (length (filter P [x]) + length (filter P l))%nat.
Proof. by rewrite <- length_app, <- filter_app. Qed.

Lemma called_app (m : FormViewCall) (l1 l2 : list FormViewCall) :
  called m (l1 ++ l2) = (called m l1 + called m l2)%nat.
Proof. unfold called. by rewrite filter_app, length_app. Qed.

Lemma resets_app (l1 l2 : list PluginEvent) :
  resets (l1 ++ l2) = (resets l1 + resets l2)%nat.
Proof. unfold resets. by rewrite filter_app, length_app. Qed.

Lemma dirtyings_app (l1 l2 : list Notification) :
  dirtyings (l1 ++ l2) = (dirtyings l1 + dirtyings l2)%nat.
Proof. unfold dirtyings. by rewrite filter_app, length_app. Qed.

Lemma notifications_cons (i : Input) (inputs : list Input) :
  notifications (i :: inputs) = notifications [i] ++ notifications inputs.
Proof. unfold notifications. by rewrite <- omap_app. Qed.

(** One input on a heap where the collection exists. *)
Lemma handle_step (i : Input) (c : Component) (σ : Heap) (R : list ref) :
  σ !! results (editingState (plugin c)) = Some R →
  ∃ (c' : Component) (σ' : Heap),
    handle compareWith deref i c σ = Some (c', σ') ∧
    results (editingState (plugin c')) = results (editingState (plugin c)) ∧
    σ' !! results (editingState (plugin c)) = Some R ∧
    resets (fired (plugin c')) =
      (resets (fired (plugin c)) + closings [i] + dirtyings (notifications [i]))%nat ∧
    ∀ m : FormViewCall,
      called m (calls c') =
        (called m (calls c)
         + (if decide (m = focus) then openings [i] + closings [i] else openings [i]))%nat.
Proof.
  intros HR. destruct i as [n|b]; simpl.
  - destruct (dispatch_step compareWith deref n (plugin c) σ R HR)
      as (p & σ' & Hn & Hres & HR' & Hf & _).
    unfold mbind, JS_bind. rewrite Hn.
    eexists _, _. split; [done|]. simpl.
    split; [done|]. split; [done|]. split.
    + rewrite Hf. unfold closings. simpl. lia.
    + intros m. unfold openings, closings. simpl. case_decide; lia.
  - eexists _, _. split; [done|].
    destruct b; simpl; (split; [done|]); (split; [done|]); split.
    + unfold closings, dirtyings. simpl. lia.
    + intros m. rewrite called_app. f_equal. by destruct m.
    + rewrite resets_app.
      assert (resets [searchReseted] = 1%nat) as -> by done.
      assert (closings [IsOpenChange false] = 1%nat) as -> by done.
      unfold dirtyings. simpl. lia.
    + intros m. rewrite called_app. f_equal. by destruct m.
Qed.

(** X9. Over any run of inputs to the component the listeners do not throw
    and do not change the result set; [searchReseted] is fired once for each
    closing of the dropdown and once for each change of [isDirty] to [true],
    and never otherwise; the form is focused once for each opening and each
    closing; and each of [disableCssTransitions], [reset], [select] and
    [enableCssTransitions] is called once for each opening and never on a
    closing. *)
Theorem component_run (inputs : list Input) (c : Component) (σ : Heap) (R : list ref) :
  σ !! results (editingState (plugin c)) = Some R →
  ∃ (c' : Component) (σ' : Heap),
    handle_all compareWith deref inputs c σ = Some (c', σ') ∧
    σ' !! results (editingState (plugin c)) = Some R ∧
    resets (fired (plugin c')) =
      (resets (fired (plugin c)) + closings inputs
       + dirtyings (notifications inputs))%nat ∧
    called focus (calls c') =
      (called focus (calls c) + openings inputs + closings inputs)%nat ∧
    ∀ m : FormViewCall, m ≠ focus →
      called m (calls c') = (called m (calls c) + openings inputs)%nat.
Proof.
  revert c σ. induction inputs as [|i inputs IH]; intros c σ HR.
  - exists c, σ. split; [done|]. split; [done|].
    unfold closings, openings, dirtyings. simpl.
    split; [lia|]. split; [lia|]. intros; lia.
  - destruct (handle_step i c σ R HR) as (c1 & σ1 & Hi & Hres1 & HR1 & Hf1 & Hc1).
    rewrite <- Hres1 in HR1.
    destruct (IH c1 σ1 HR1) as (c' & σ' & His & HR' & Hf & Hfocus & Hc).
    exists c', σ'. split; [simpl; unfold mbind, JS_bind; by rewrite Hi|].
    split; [by rewrite <- Hres1|].
    assert (closings (i :: inputs) = (closings [i] + closings inputs)%nat) as Ecl
      by apply length_filter_cons.
    assert (openings (i :: inputs) = (openings [i] + openings inputs)%nat) as Eop
      by apply length_filter_cons.
    split; [|split].
    + rewrite Hf, Hf1, Ecl, (notifications_cons i inputs), dirtyings_app. lia.
    + rewrite Hfocus, (Hc1 focus), Ecl, Eop, decide_True by done. lia.
    + intros m Hm. rewrite (Hc m Hm), (Hc1 m), Eop, decide_False by done. lia.
Qed.

End ComponentFacts.

(** * More on the default image styles *)

Section ImageStyleFacts.

Import ImageStyleEditing.

(** X11. A default for ['image.styles'] is defined exactly when [ImageBlock]
    or [ImageInline] is loaded.  A defined default has arrangements, at least
    one and none twice, has groups exactly when both plugins are loaded, and
    has no other key. *)
Theorem default_styles_shape (loadedPlugins : gset string) :
  (styles loadedPlugins = None ↔
     ("ImageBlock" ∉ loadedPlugins) ∧ ("ImageInline" ∉ loadedPlugins)) ∧
  ∀ s : gmap string (list string), styles loadedPlugins = Some s →
    (∃ arr, s !! "arrangements" = Some arr ∧ arr ≠ [] ∧ NoDup arr) ∧
    (is_Some (s !! "groups") ↔
       "ImageBlock" ∈ loadedPlugins ∧ "ImageInline" ∈ loadedPlugins) ∧
    dom s ⊆ {[ "arrangements"; "groups" ]}.
Proof.
  unfold styles.
  destruct (decide ("ImageBlock" ∈ loadedPlugins)) as [Hb|Hb];
    destruct (decide ("ImageInline" ∈ loadedPlugins)) as [Hi|Hi];
    rewrite ?(bool_decide_eq_true_2 _ Hb), ?(bool_decide_eq_false_2 _ Hb),
            ?(bool_decide_eq_true_2 _ Hi), ?(bool_decide_eq_false_2 _ Hi); simpl.
  - split; [split; [done|tauto]|]. intros s [= <-]. split; [|split].
    + eexists. split; [reflexivity|]. split; [done|]. compute_done.
    + split; [done|]. intros _. by eexists.
    + rewrite dom_insert_L, dom_singleton_L. set_solver.
  - split; [split; [done|tauto]|]. intros s [= <-]. split; [|split].
    + eexists. split; [reflexivity|]. split; [done|]. compute_done.
    + split; [|tauto]. by intros [? [=]].
    + rewrite dom_singleton_L. set_solver.
  - split; [split; [done|tauto]|]. intros s [= <-]. split; [|split].
    + eexists. split; [reflexivity|]. split; [done|]. compute_done.
    + split; [|tauto]. by intros [? [=]].
    + rewrite dom_singleton_L. set_solver.
  - split; [done|]. by intros s [=].
Qed.

End ImageStyleFacts.


(** * Instances on the scenario and on a session *)

Section MoreScenarios.

Import JSArray FindAndReplaceUI FindAndReplaceDropdown Scenario Session.

Local Abbreviation byOffset := (comparefn OffsetPositions.compareWith).
Local Abbreviation offsetOf := (computeHighlightOffset OffsetPositions.compareWith).
Local Abbreviation startOf d r := (getStart (marker (d r))).

Example session_run :
  fst <$> handle_all OffsetPositions.compareWith deref inputs component heap =
    Some {| plugin :=
              {| formView := {| highlightOffset := 0; matchCount := 3 |};
                 editingState := {| results := 0%nat; highlightedResult := None |};
                 fired := [searchReseted; findNext "cat"; replace "dog"; searchReseted] |};
            calls := [disableCssTransitions; reset; select; focus;
                      enableCssTransitions; focus] |}.
Proof. by vm_compute. Qed.

Lemma highlightOffset_repeatable_witness :
  heap !! results state = Some [resultA; resultB; resultC] ∧
  ∃ (o : Z) (σ1 σ2 : Heap),
    offsetOf deref state (Some resultA) heap = Some (o, σ1) ∧
    offsetOf deref state (Some resultA) σ1 = Some (o, σ2).
Proof.
  split; [reflexivity|].
  apply (highlightOffset_repeatable OffsetPositions.compareWith deref
           state heap [resultA; resultB; resultC] (Some resultA)).
  reflexivity.
Defined.

Lemma highlightOffset_rank_witness :
  resultB ∈ [resultA; resultB; resultC] ∧
  ∃ σ' : Heap,
    offsetOf deref_tied state (Some resultB) heap =
      Some (1 + Z.of_nat (length (filter
                (λ r, OffsetPositions.compareWith (startOf deref_tied r)
                        (startOf deref_tied resultB) = before)
                [resultA; resultB; resultC]))
              + indexOf (filter (ties (byOffset deref_tied) resultB)
                           [resultA; resultB; resultC]) resultB, σ').
Proof.
  split; [compute_done|].
  apply (highlightOffset_rank OffsetPositions.compareWith deref_tied
           state heap [resultA; resultB; resultC] resultB).
  - apply offsets_consistent.
  - reflexivity.
  - compute_done.
Defined.

Lemma highlightOffset_injective_witness :
  resultA ≠ resultC ∧
  ∃ (o1 o2 : Z) (σ1 σ2 : Heap),
    offsetOf deref state (Some resultA) heap = Some (o1, σ1) ∧
    offsetOf deref state (Some resultC) heap = Some (o2, σ2) ∧
    o1 ≠ o2.
Proof.
  split; [compute_done|].
  apply (highlightOffset_injective OffsetPositions.compareWith deref
           state heap [resultA; resultB; resultC] resultA resultC).
  - reflexivity.
  - compute_done.
  - compute_done.
  - compute_done.
Defined.

Lemma highlightOffset_surjective_witness :
  NoDup [resultA; resultB; resultC] ∧
  ∃ (h : ref) (σ' : Heap),
    h ∈ [resultA; resultB; resultC] ∧ offsetOf deref state (Some h) heap = Some (2, σ').
Proof.
  split; [compute_done|].
  apply (highlightOffset_surjective OffsetPositions.compareWith deref
           state heap [resultA; resultB; resultC] 2).
  - reflexivity.
  - compute_done.
  - simpl. lia.
Defined.

Lemma highlightOffset_zero_iff_witness :
  heap !! results state = Some [resultA; resultB; resultC] ∧
  ∃ (o : Z) (σ' : Heap),
    offsetOf deref state (Some 7%nat) heap = Some (o, σ') ∧
    0 ≤ o ≤ Z.of_nat (length [resultA; resultB; resultC]) ∧
    (o = 0 ↔ ∀ x : ref, Some 7%nat = Some x → x ∉ [resultA; resultB; resultC]).
Proof.
  split; [reflexivity|].
  apply (highlightOffset_zero_iff OffsetPositions.compareWith deref
           state heap [resultA; resultB; resultC] (Some 7%nat)).
  reflexivity.
Defined.

Lemma highlightOffset_insertion_order_irrelevant_witness :
  [resultA; resultB; resultC] ≡ₚ [resultC; resultA; resultB] ∧
  ∃ (o : Z) (σ1 σ2 : Heap),
    offsetOf deref state (Some resultA) heap = Some (o, σ1) ∧
    offsetOf deref state (Some resultA) heap_reordered = Some (o, σ2).
Proof.
  split; [exact (Permutation_app_comm [resultA; resultB] [resultC])|].
  apply (highlightOffset_insertion_order_irrelevant OffsetPositions.compareWith deref
           state state heap heap_reordered
           [resultA; resultB; resultC] [resultC; resultA; resultB] (Some resultA)).
  - apply offsets_consistent.
  - reflexivity.
  - reflexivity.
  - exact (Permutation_app_comm [resultA; resultB] [resultC]).
  - intros a b Ha Hb Hne.
    rewrite !elem_of_cons, elem_of_nil in Ha, Hb.
    destruct Ha as [->|[->|[->|[]]]]; destruct Hb as [->|[->|[->|[]]]];
      (done || (by left) || (by right)).
Defined.

Lemma dispatch_all_run_witness :
  heap !! results (editingState ui) = Some [resultA; resultB; resultC] ∧
  ∃ (ui' : UI) (σ' : Heap),
    dispatch_all OffsetPositions.compareWith deref run ui heap = Some (ui', σ') ∧
    results (editingState ui') = results (editingState ui) ∧
    σ' !! results (editingState ui) = Some [resultA; resultB; resultC] ∧
    resets (fired ui') = (resets (fired ui) + dirtyings run)%nat ∧
    matchCount (formView ui') =
      (if decide (ResultsChange ∈ run)
       then Z.of_nat (length [resultA; resultB; resultC])
       else matchCount (formView ui)).
Proof.
  split; [reflexivity|].
  apply (dispatch_all_run OffsetPositions.compareWith deref
           run ui heap [resultA; resultB; resultC]).
  reflexivity.
Defined.

Lemma delegated_in_order_witness :
  delegated run = [findNext "cat"; replace "dog"] ∧
  ∃ (ui' : UI) (σ' : Heap),
    dispatch_all OffsetPositions.compareWith deref run ui heap = Some (ui', σ') ∧
    commandEvents (fired ui') = commandEvents (fired ui) ++ delegated run.
Proof.
  split; [reflexivity|].
  apply (delegated_in_order OffsetPositions.compareWith deref
           run ui heap [resultA; resultB; resultC]).
  reflexivity.
Defined.

Lemma display_invariant_witness :
  heap !! results (editingState ui_2_of_3) = Some [resultA; resultB; resultC] ∧
  matchCount (formView ui_2_of_3) = Z.of_nat (length [resultA; resultB; resultC]) ∧
  0 ≤ highlightOffset (formView ui_2_of_3) ≤ matchCount (formView ui_2_of_3) ∧
  ∃ (ui' : UI) (σ' : Heap),
    dispatch_all OffsetPositions.compareWith deref run ui_2_of_3 heap = Some (ui', σ') ∧
    matchCount (formView ui') = Z.of_nat (length [resultA; resultB; resultC]) ∧
    0 ≤ highlightOffset (formView ui') ≤ matchCount (formView ui').
Proof.
  split; [reflexivity|]. split; [reflexivity|]. split; [simpl; lia|].
  apply (display_invariant OffsetPositions.compareWith deref
           run ui_2_of_3 heap [resultA; resultB; resultC]).
  - reflexivity.
  - reflexivity.
  - simpl. lia.
Defined.

Example display_invariant_run :
  fst <$> dispatch_all OffsetPositions.compareWith deref
            [ HighlightedResultChange (Some resultC); IsDirtyChange true;
              HighlightedResultChange (Some 7%nat); ResultsChange;
              HighlightedResultChange (Some resultA) ] ui_2_of_3 heap =
    Some {| formView := {| highlightOffset := 2; matchCount := 3 |};
            editingState := {| results := 0%nat; highlightedResult := Some resultA |};
            fired := [searchReseted] |}.
Proof. by vm_compute. Qed.

Lemma component_run_witness :
  heap !! results (editingState (plugin component)) = Some [resultA; resultB; resultC] ∧
  ∃ (c' : Component) (σ' : Heap),
    handle_all OffsetPositions.compareWith deref inputs component heap = Some (c', σ') ∧
    σ' !! results (editingState (plugin component)) = Some [resultA; resultB; resultC] ∧
    resets (fired (plugin c')) =
      (resets (fired (plugin component)) + closings inputs
       + dirtyings (notifications inputs))%nat ∧
    called focus (calls c') =
      (called focus (calls component) + openings inputs + closings inputs)%nat ∧
    ∀ m : FormViewCall, m ≠ focus →
      called m (calls c') = (called m (calls component) + openings inputs)%nat.
Proof.
  split; [reflexivity|].
  apply (component_run OffsetPositions.compareWith deref
           inputs component heap [resultA; resultB; resultC]).
  reflexivity.
Defined.

End MoreScenarios.

(** * Comparators that are consistent on the array that is sorted *)

Section SortFactsOn.
Context {A : Type} `{EqDecision A}.
Variable comparefn : A → A → option Z.

Import JSArray.

Local Abbreviation cmp := (SortCompare comparefn).
Local Abbreviation le := (cmp_le comparefn).
Local Abbreviation tie := (ties comparefn).

Lemma Consistent_on (U : list A) : Consistent comparefn → ConsistentOn comparefn U.
Proof.
  intros Hc. split.
  - intros a _. apply (cmp_refl _ Hc).
  - intros a b _ _. apply (cmp_sym _ Hc).
  - intros a b c _ _ _. apply (cmp_eq_trans _ Hc).
  - intros a b c _ _ _. apply (cmp_lt_trans _ Hc).
  - intros a b c _ _ _. apply (cmp_gt_trans _ Hc).
Qed.

Variable U : list A.
Hypothesis Hc : ConsistentOn comparefn U.

Lemma on_flip_lt (a b : A) : a ∈ U → b ∈ U → cmp a b < 0 → 0 < cmp b a.
Proof.
  intros Ha Hb Hab.
  destruct (Z.lt_trichotomy (cmp b a) 0) as [Hlt|[Heq|Hgt]]; [| |done].
  - pose proof (on_lt_trans _ _ Hc a b a Ha Hb Ha Hab Hlt) as Haa.
    rewrite (on_refl _ _ Hc a Ha) in Haa. lia.
  - apply (on_sym _ _ Hc b a Hb Ha) in Heq. lia.
Qed.

Lemma on_flip_gt (a b : A) : a ∈ U → b ∈ U → 0 < cmp a b → cmp b a < 0.
Proof.
  intros Ha Hb Hab.
  destruct (Z.lt_trichotomy (cmp b a) 0) as [Hlt|[Heq|Hgt]]; [done| |].
  - apply (on_sym _ _ Hc b a Hb Ha) in Heq. lia.
  - pose proof (on_gt_trans _ _ Hc a b a Ha Hb Ha Hab Hgt) as Haa.
    rewrite (on_refl _ _ Hc a Ha) in Haa. lia.
Qed.

Lemma on_le_trans (a b c : A) : a ∈ U → b ∈ U → c ∈ U → le a b → le b c → le a c.
Proof.
  unfold cmp_le. intros Ha Hb Hc' Hab Hbc.
  destruct (Z.lt_trichotomy (cmp a c) 0) as [Hlt|[Heq|Hgt]]; [lia|lia|exfalso].
  pose proof (on_flip_gt a c Ha Hc' Hgt) as Hca.
  destruct (decide (cmp a b = 0)) as [Hab0|Hab0];
    destruct (decide (cmp b c = 0)) as [Hbc0|Hbc0].
  - pose proof (on_eq_trans _ _ Hc a b c Ha Hb Hc' Hab0 Hbc0). lia.
  - assert (cmp b c < 0) as Hbc' by lia.
    pose proof (on_gt_trans _ _ Hc a c b Ha Hc' Hb Hgt
                  (on_flip_lt b c Hb Hc' Hbc')). lia.
  - assert (cmp a b < 0) as Hab' by lia.
    pose proof (on_lt_trans _ _ Hc c a b Hc' Ha Hb Hca Hab') as Hcb.
    rewrite (on_sym _ _ Hc b c Hb Hc' Hbc0) in Hcb. lia.
  - assert (cmp a b < 0) as Hab' by lia. assert (cmp b c < 0) as Hbc' by lia.
    pose proof (on_lt_trans _ _ Hc a b c Ha Hb Hc' Hab' Hbc'). lia.
Qed.

Lemma on_le_antisym (a b : A) : a ∈ U → b ∈ U → le a b → le b a → cmp a b = 0.
Proof.
  unfold cmp_le. intros Ha Hb Hab Hba.
  destruct (decide (cmp a b = 0)) as [|Hne]; [done|].
  assert (0 < cmp b a); [apply on_flip_lt; [done..|lia]|lia].
Qed.

Lemma on_ties_not_gt (k x y : A) :
  k ∈ U → x ∈ U → y ∈ U → tie k x → tie k y → ¬ 0 < cmp x y.
Proof.
  unfold ties. intros Hk Hx Hy Hkx Hky.
  rewrite (on_eq_trans _ _ Hc x k y); [lia|done..| |done].
  by apply (on_sym _ _ Hc).
Qed.

Lemma sort_Forall (P : A → Prop) (l : list A) :
  Forall P l → Forall P (sort comparefn l).
Proof. by rewrite sort_perm. Qed.

Lemma sort_insert_sorted_on (x : A) (l : list A) :
  x ∈ U → Forall (.∈ U) l →
  StronglySorted le l → StronglySorted le (sort_insert comparefn x l).
Proof.
  intros Hx. induction l as [|y l IH]; simpl; intros HU Hl.
  - repeat constructor.
  - apply Forall_cons in HU as [Hy HU].
    apply StronglySorted_cons in Hl as [Hyl Hl].
    case_decide as Hxy.
    + apply StronglySorted_cons. split; [|by apply IH].
      rewrite sort_insert_perm. constructor; [|done].
      unfold cmp_le. pose proof (on_flip_gt x y Hx Hy Hxy). lia.
    + assert (le x y) as Hle by (unfold cmp_le; lia).
      apply StronglySorted_cons. split; [|by apply StronglySorted_cons].
      constructor; [done|].
      rewrite Forall_forall in Hyl, HU. apply Forall_forall. intros z Hz.
      apply (on_le_trans x y z); auto.
Qed.

Lemma sort_sorted_on (l : list A) :
  Forall (.∈ U) l → StronglySorted le (sort comparefn l).
Proof.
  induction l as [|x l IH]; simpl; intros HU; [constructor|].
  apply Forall_cons in HU as [Hx HU].
  apply sort_insert_sorted_on; [done|by apply sort_Forall|by apply IH].
Qed.

Lemma sort_insert_ties_on (k x : A) (l : list A) :
  k ∈ U → x ∈ U → Forall (.∈ U) l →
  filter (tie k) (sort_insert comparefn x l) = filter (tie k) (x :: l).
Proof.
  intros Hk Hx. induction l as [|y l IH]; simpl; intros HU; [done|].
  apply Forall_cons in HU as [Hy HU].
  case_decide as Hxy; [|done].
  rewrite (filter_cons _ y (sort_insert _ _ _)), IH, !filter_cons by done.
  destruct (decide (tie k x)) as [Hkx|Hkx]; destruct (decide (tie k y)) as [Hky|Hky];
    try done.
  by destruct (on_ties_not_gt k x y).
Qed.

Lemma sort_stable_on (k : A) (l : list A) :
  k ∈ U → Forall (.∈ U) l →
  filter (tie k) (sort comparefn l) = filter (tie k) l.
Proof.
  intros Hk. induction l as [|x l IH]; simpl; intros HU; [done|].
  apply Forall_cons in HU as [Hx HU].
  rewrite sort_insert_ties_on by (done || by apply sort_Forall).
  by rewrite !filter_cons, IH.
Qed.

Lemma stable_sorted_eq_on (s1 s2 : list A) :
  Forall (.∈ U) s1 → s1 ≡ₚ s2 → StronglySorted le s1 → StronglySorted le s2 →
  (∀ k, k ∈ s1 → filter (tie k) s1 = filter (tie k) s2) → s1 = s2.
Proof.
  revert s2. induction s1 as [|x s1 IH]; intros s2 HU Hp H1 H2 Hf.
  - by apply Permutation_nil_l in Hp.
  - destruct s2 as [|y s2]; [by apply Permutation_nil_r in Hp|].
    apply Forall_cons in HU as [Hx HU].
    apply StronglySorted_cons in H1 as [Hx1 H1].
    apply StronglySorted_cons in H2 as [Hy2 H2].
    assert (y ∈ x :: s1) as Hyin by (rewrite Hp; left).
    assert (x ∈ y :: s2) as Hxin by (rewrite <- Hp; left).
    assert (y ∈ U) as Hy.
    { apply elem_of_cons in Hyin as [->|Hyin]; [done|].
      rewrite Forall_forall in HU. auto. }
    assert (cmp x y = 0) as Hxy.
    { apply elem_of_cons in Hyin as [->|Hyin]; [by apply (on_refl _ _ Hc)|].
      apply elem_of_cons in Hxin as [->|Hxin]; [by apply (on_refl _ _ Hc)|].
      rewrite Forall_forall in Hx1, Hy2. apply on_le_antisym; auto. }
    assert (x = y) as <-.
    { specialize (Hf x ltac:(left)). rewrite !filter_cons in Hf.
      rewrite decide_True in Hf by (by apply (on_refl _ _ Hc)).
      rewrite decide_True in Hf by exact Hxy. congruence. }
    f_equal. apply IH; [done|by apply Permutation_cons_inv in Hp|done|done|].
    intros k Hk. specialize (Hf k ltac:(by right)). rewrite !filter_cons in Hf.
    case_decide; congruence.
Qed.

Lemma indexOf_from_sorted_lt_on (a b : A) (l : list A) (k : Z) :
  StronglySorted le l → Forall (.∈ U) l → a ∈ l → b ∈ l →
  cmp a b < 0 →
  indexOf_from l a k < indexOf_from l b k.
Proof.
  intros Hs HU Ha Hb Hab. revert k.
  assert (a ∈ U) as HaU by (rewrite Forall_forall in HU; auto).
  assert (b ∈ U) as HbU by (rewrite Forall_forall in HU; auto).
  clear HU.
  induction Hs as [|y l Hs IH Hy]; intros k; [by apply elem_of_nil in Ha|].
  simpl. rewrite Forall_forall in Hy.
  destruct (decide (y = a)) as [->|Hya].
  - rewrite decide_False.
    + apply elem_of_cons in Hb as [->|Hb].
      * rewrite (on_refl _ _ Hc a HaU) in Hab. lia.
      * pose proof (indexOf_from_ge l b (k + 1) Hb). lia.
    + intros ->. rewrite (on_refl _ _ Hc b HbU) in Hab. lia.
  - apply elem_of_cons in Ha as [->|Ha]; [done|].
    destruct (decide (y = b)) as [->|Hyb].
    + pose proof (Hy a Ha) as Hba. unfold cmp_le in Hba.
      pose proof (on_flip_lt a b HaU HbU Hab). lia.
    + apply elem_of_cons in Hb as [->|Hb]; [done|]. by apply IH.
Qed.

End SortFactsOn.

Section SortOnItself.
Context {A : Type} `{EqDecision A}.
Variable comparefn : A → A → option Z.

Import JSArray.

Lemma Forall_elem_of_self (l : list A) : Forall (.∈ l) l.
Proof. by apply Forall_forall. Qed.

(** With a comparator that is consistent on the array, the model's result is
    a stable sort of the array, and the only one. *)
Lemma sort_StableSortOn (l : list A) :
  ConsistentOn comparefn l → StableSortOn comparefn l (sort comparefn l).
Proof.
  intros Hc. split; [apply sort_perm|]. split.
  - apply (sort_sorted_on comparefn l Hc), Forall_elem_of_self.
  - intros k Hk. apply (sort_stable_on comparefn l Hc); [done|apply Forall_elem_of_self].
Qed.

Lemma sort_unique_on (l s : list A) :
  ConsistentOn comparefn l → StableSortOn comparefn l s → s = sort comparefn l.
Proof.
  intros Hc (Hp & Hs & Hf).
  apply (stable_sorted_eq_on comparefn l Hc).
  - rewrite Hp. apply Forall_elem_of_self.
  - by rewrite sort_perm.
  - done.
  - apply (sort_sorted_on comparefn l Hc), Forall_elem_of_self.
  - intros k Hk. rewrite Hp in Hk. rewrite (Hf k Hk).
    symmetry. apply (sort_stable_on comparefn l Hc); [done|apply Forall_elem_of_self].
Qed.

End SortOnItself.

(** * The offsets when the comparator is consistent on the result set *)

Section HighlightOffsetOn.
Context {Position : Type}.
Variable compareWith : Position → Position → FindAndReplaceUI.PositionRelation.
Variable deref : nat → FindAndReplaceUI.Result (Position := Position).

Import JSArray FindAndReplaceUI.

Local Abbreviation cmpfn := (comparefn compareWith deref).
Local Abbreviation offsetOf := (computeHighlightOffset compareWith deref).
Local Abbreviation start r := (getStart (marker (deref r))).

Lemma sort_SortedByPosition_on (R : list ref) :
  ConsistentOn cmpfn R → SortedByPosition compareWith deref R (sort cmpfn R).
Proof.
  intros Hc. split; [apply sort_perm|].
  pose proof (sort_sorted_on cmpfn R Hc R (Forall_elem_of_self R)) as Hs.
  induction Hs as [|x l Hs IH Hx]; constructor; [done|].
  eapply Forall_impl; [exact Hx|]. intros y. apply cmp_le_not_after.
Qed.

(** X13. For a highlighted result of the set the callback returns
    [index + 1], where [index] is the position of the first occurrence of the
    result in the array that was sorted, a permutation of the set; the value
    is between 1 and the size of the set.  When the comparator is consistent
    on the results of the set, that array is the stable sort of the set, in
    ascending order of position. *)
Theorem highlightOffset_index_in_sorted_copy
    (st : EditingState) (σ : Heap) (R : list ref) (h : ref) :
  σ !! results st = Some R → h ∈ R →
  ∃ (S : list ref) (index : nat) (σ' : Heap),
    offsetOf st (Some h) σ = Some (Z.of_nat index + 1, σ') ∧
    S ≡ₚ R ∧
    S !! index = Some h ∧
    (∀ j : nat, (j < index)%nat → S !! j ≠ Some h) ∧
    1 ≤ Z.of_nat index + 1 ≤ Z.of_nat (length R) ∧
    (ConsistentOn cmpfn R →
       StableSortOn cmpfn R S ∧ SortedByPosition compareWith deref R S).
Proof.
  intros HR Hh.
  assert (h ∈ sort cmpfn R) as HhS by (by apply sort_elem_of).
  destruct (indexOf_from_elem_of _ h 0 HhS) as (i & Hi & Hl & Hfirst).
  exists (sort cmpfn R), i, (<[fresh (dom σ) := sort cmpfn R]> σ).
  split; [|split; [|split; [|split; [|split]]]].
  - rewrite (computeHighlightOffset_run _ _ st h σ R HR). unfold indexOf.
    rewrite Hi. do 2 f_equal; lia.
  - apply sort_perm.
  - done.
  - done.
  - apply lookup_lt_Some in Hl. rewrite sort_length in Hl. lia.
  - intros Hc. split; [by apply sort_StableSortOn|by apply sort_SortedByPosition_on].
Qed.

(** X14. When the comparator is consistent on the results of the set, two
    results of the set whose positions compare as [same] get their offsets in
    the order of their insertion in the set. *)
Theorem highlightOffset_stable_on
    (st : EditingState) (σ : Heap) (R : list ref) (r1 r2 : ref) :
  ConsistentOn cmpfn R → σ !! results st = Some R → r1 ∈ R → r2 ∈ R →
  compareWith (start r1) (start r2) = same →
  ∃ (o1 o2 : Z) (σ1 σ2 : Heap),
    offsetOf st (Some r1) σ = Some (o1, σ1) ∧
    offsetOf st (Some r2) σ = Some (o2, σ2) ∧
    (o1 < o2 ↔ indexOf R r1 < indexOf R r2).
Proof.
  intros Hc HR Hr1 Hr2 Hsame.
  assert (indexOf (sort cmpfn R) r1 < indexOf (sort cmpfn R) r2
          ↔ indexOf R r1 < indexOf R r2) as Hiff.
  { unfold indexOf.
    assert (ties cmpfn r1 r1) as H1 by (by apply (on_refl _ _ Hc)).
    assert (ties cmpfn r1 r2) as H2 by (by apply SortCompare_same).
    rewrite (indexOf_from_filter (ties cmpfn r1) r1 r2 (sort cmpfn R) 0 0 H1 H2) by lia.
    rewrite (indexOf_from_filter (ties cmpfn r1) r1 r2 R 0 0 H1 H2) by lia.
    by rewrite (sort_stable_on cmpfn R Hc r1 R Hr1 (Forall_elem_of_self R)). }
  eexists _, _, _, _.
  split; [by apply computeHighlightOffset_run|].
  split; [by apply computeHighlightOffset_run|].
  rewrite <- Hiff. lia.
Qed.

(** X15. When the comparator is consistent on the results of the set, a
    result of the set whose position is before the position of another gets
    the smaller offset. *)
Theorem highlightOffset_monotone_on
    (st : EditingState) (σ : Heap) (R : list ref) (h1 h2 : ref) :
  ConsistentOn cmpfn R → σ !! results st = Some R → h1 ∈ R → h2 ∈ R →
  compareWith (start h1) (start h2) = before →
  ∃ (o1 o2 : Z) (σ1 σ2 : Heap),
    offsetOf st (Some h1) σ = Some (o1, σ1) ∧
    offsetOf st (Some h2) σ = Some (o2, σ2) ∧
    o1 < o2.
Proof.
  intros Hc HR H1 H2 Hbefore.
  eexists _, _, _, _.
  split; [by apply computeHighlightOffset_run|].
  split; [by apply computeHighlightOffset_run|].
  assert (indexOf (sort cmpfn R) h1 < indexOf (sort cmpfn R) h2); [|lia].
  apply (indexOf_from_sorted_lt_on cmpfn R Hc).
  - apply (sort_sorted_on cmpfn R Hc), Forall_elem_of_self.
  - apply sort_Forall, Forall_elem_of_self.
  - by apply sort_elem_of.
  - by apply sort_elem_of.
  - rewrite SortCompare_before; [lia|done].
Qed.

End HighlightOffsetOn.

(** * Results in one root, and results in two *)

Section Roots.

Import JSArray FindAndReplaceUI RootedPositions.

Local Abbreviation byRoot := (comparefn RootedPositions.compareWith).
Local Abbreviation offsetOf := (computeHighlightOffset RootedPositions.compareWith).
Local Abbreviation startOf d r := (getStart (marker (d r))).

Lemma SortCompare_same_root (deref : ref → Result) (a b : ref) :
  root (startOf deref a) = root (startOf deref b) →
  SortCompare (byRoot deref) a b =
    match offset (startOf deref a) ?= offset (startOf deref b) with
    | Lt => -1
    | Eq => 0
    | Gt => 1
    end.
Proof.
  intros Hroot. unfold SortCompare, comparefn, compareWith.
  rewrite decide_True by done. unfold OffsetPositions.compareWith.
  by destruct (_ ?= _).
Qed.

(** Results that all lie in one root are compared consistently. *)
Lemma same_root_consistent (deref : ref → Result) (R : list ref) (ρ : string) :
  Forall (λ r, root (startOf deref r) = ρ) R → ConsistentOn (byRoot deref) R.
Proof.
  rewrite Forall_forall. intros Hroot.
  assert (∀ a b, a ∈ R → b ∈ R →
            SortCompare (byRoot deref) a b =
              match offset (startOf deref a) ?= offset (startOf deref b) with
              | Lt => -1 | Eq => 0 | Gt => 1 end) as Hcmp.
  { intros a b Ha Hb. apply SortCompare_same_root.
    by rewrite (Hroot a Ha), (Hroot b Hb). }
  split.
  - intros a Ha. rewrite Hcmp by done. by rewrite Z.compare_refl.
  - intros a b Ha Hb. rewrite !Hcmp by done.
    destruct (Z.compare_spec (offset (startOf deref a)) (offset (startOf deref b)));
      destruct (Z.compare_spec (offset (startOf deref b)) (offset (startOf deref a)));
      lia.
  - intros a b c Ha Hb Hc'. rewrite !Hcmp by done.
    destruct (Z.compare_spec (offset (startOf deref a)) (offset (startOf deref b)));
      destruct (Z.compare_spec (offset (startOf deref b)) (offset (startOf deref c)));
      destruct (Z.compare_spec (offset (startOf deref a)) (offset (startOf deref c)));
      lia.
  - intros a b c Ha Hb Hc'. rewrite !Hcmp by done.
    destruct (Z.compare_spec (offset (startOf deref a)) (offset (startOf deref b)));
      destruct (Z.compare_spec (offset (startOf deref b)) (offset (startOf deref c)));
      destruct (Z.compare_spec (offset (startOf deref a)) (offset (startOf deref c)));
      lia.
  - intros a b c Ha Hb Hc'. rewrite !Hcmp by done.
    destruct (Z.compare_spec (offset (startOf deref a)) (offset (startOf deref b)));
      destruct (Z.compare_spec (offset (startOf deref b)) (offset (startOf deref c)));
      destruct (Z.compare_spec (offset (startOf deref a)) (offset (startOf deref c)));
      lia.
Qed.


End Roots.

(** * Result sets with results in two roots *)

Section TwoRootsFacts.

Import JSArray FindAndReplaceUI RootedPositions Scenario TwoRoots.

Local Abbreviation byRoot := (comparefn RootedPositions.compareWith).
Local Abbreviation offsetOf := (computeHighlightOffset RootedPositions.compareWith).
Local Abbreviation startOf d r := (getStart (marker (d r))).




Example two_roots_not_consistent_on_all :
  ConsistentOn (byRoot TwoRoots.deref) [resultA; resultC] ∧
  ¬ Consistent (byRoot TwoRoots.deref).
Proof.
  split.
  - apply (same_root_consistent _ _ "main"). compute_done.
  - intros Hc.
    assert (SortCompare (byRoot TwoRoots.deref) resultA resultC = 0) as Habs.
    { by apply (cmp_eq_trans _ Hc resultA resultB resultC). }
    by vm_compute in Habs.
Qed.

Lemma highlightOffset_index_in_sorted_copy_witness :
  heap_main !! results state = Some [resultA; resultC] ∧
  resultA ∈ [resultA; resultC] ∧
  ∃ (S : list ref) (index : nat) (σ' : Heap),
    offsetOf TwoRoots.deref state (Some resultA) heap_main
      = Some (Z.of_nat index + 1, σ') ∧
    S ≡ₚ [resultA; resultC] ∧
    S !! index = Some resultA ∧
    (∀ j : nat, (j < index)%nat → S !! j ≠ Some resultA) ∧
    1 ≤ Z.of_nat index + 1 ≤ Z.of_nat (length [resultA; resultC]) ∧
    StableSortOn (byRoot TwoRoots.deref) [resultA; resultC] S ∧
    SortedByPosition RootedPositions.compareWith TwoRoots.deref [resultA; resultC] S.
Proof.
  split; [reflexivity|]. split; [compute_done|].
  destruct (highlightOffset_index_in_sorted_copy RootedPositions.compareWith
              TwoRoots.deref state heap_main [resultA; resultC] resultA)
    as (S & index & σ' & Ho & Hp & Hl & Hfirst & Hrange & Hsorted).
  - reflexivity.
  - compute_done.
  - exists S, index, σ'.
    split; [exact Ho|]. split; [exact Hp|]. split; [exact Hl|].
    split; [exact Hfirst|]. split; [exact Hrange|].
    apply Hsorted. apply (same_root_consistent _ _ "main"). compute_done.
Defined.

Lemma highlightOffset_stable_on_witness :
  OffsetPositions.compareWith
    (startOf deref_tied resultA) (startOf deref_tied resultB) = same ∧
  ∃ (o1 o2 : Z) (σ1 σ2 : Heap),
    computeHighlightOffset OffsetPositions.compareWith deref_tied
      state (Some resultA) heap = Some (o1, σ1) ∧
    computeHighlightOffset OffsetPositions.compareWith deref_tied
      state (Some resultB) heap = Some (o2, σ2) ∧
    (o1 < o2 ↔ indexOf [resultA; resultB; resultC] resultA
               < indexOf [resultA; resultB; resultC] resultB).
Proof.
  split; [reflexivity|].
  apply (highlightOffset_stable_on OffsetPositions.compareWith deref_tied
           state heap [resultA; resultB; resultC] resultA resultB).
  - apply Consistent_on, offsets_consistent.
  - reflexivity.
  - compute_done.
  - compute_done.
  - reflexivity.
Defined.

Lemma highlightOffset_monotone_on_witness :
  RootedPositions.compareWith
    (startOf TwoRoots.deref resultC) (startOf TwoRoots.deref resultA) = before ∧
  ∃ (o1 o2 : Z) (σ1 σ2 : Heap),
    offsetOf TwoRoots.deref state (Some resultC) heap_main = Some (o1, σ1) ∧
    offsetOf TwoRoots.deref state (Some resultA) heap_main = Some (o2, σ2) ∧
    o1 < o2.
Proof.
  split; [reflexivity|].
  apply (highlightOffset_monotone_on RootedPositions.compareWith TwoRoots.deref
           state heap_main [resultA; resultC] resultC resultA).
  - apply (same_root_consistent _ _ "main"). compute_done.
  - reflexivity.
  - compute_done.
  - compute_done.
  - reflexivity.
Defined.

End TwoRootsFacts.
